(** * CameraUtility: camera intrinsics, poses and lens distortion

    A shallow embedding of [src/utility/CameraUtility.py] and the properties
    of its camera arithmetic.

    Numbers.  The Python code computes on floats; the properties below are
    about exact real arithmetic, so a Python float is a real number [R] here
    and a Python [int] is an integer [Z] (the iteration counter, which only
    counts up from zero, is a [nat]).  A comparison of the code is the
    decision procedure of the order of [R], turned into a [bool].

    Host objects.  [bpy.context.scene], its camera and its render settings
    are records; an attribute assignment stores the assigned value unchanged
    and an attribute read returns the stored value.  What the host does on
    its own with a stored value (clamping to the range of a property,
    deriving [lens] from [angle], splitting [matrix_world] into a location
    and a rotation) is outside the Python source and is not modelled.

    Effects.  Every function of the class reads and writes the one global
    scene, and may raise.  A computation is a function from the world to the
    world after it and either a value or the exception: the writes made
    before a [raise] stay visible, as in the code. *)

From Stdlib Require Import Reals Lra Lia ZArith List String Bool.
From stdpp Require Import base gmap strings.
Import ListNotations.
Open Scope R_scope.

(** ** Python values *)

Module Py.

(** The exceptions the code raises itself, and those of the operations it
    uses.  [Exception_focal_length lens] is
    [Exception("The focal length is smaller than 1mm ...: " + str(lens))],
    [Exception_lens_unit u] is [Exception("No such lens unit: " + u)]. *)
Inductive exn : Type :=
  | Exception_focal_length (lens : R)
  | Exception_lens_unit (lens_unit : string)
  | Exception_stalled
  | Exception_unstable
  | RuntimeError_focal_point
  | ZeroDivisionError
  | ValueError_empty_reduction
  | LinAlgError_singular.

Inductive result (A : Type) : Type :=
  | Ok (a : A)
  | Raise (e : exn).
Arguments Ok {A} a.
Arguments Raise {A} e.

(** Comparisons of floats. *)
Definition Rltb (a b : R) : bool := if Rlt_dec a b then true else false.
Definition Rleb (a b : R) : bool := if Rle_dec a b then true else false.
Definition Reqb (a b : R) : bool := if Req_dec_T a b then true else false.

(** [a / b] on Python floats and ints: a zero divisor raises. *)
Definition truediv (a b : R) : result R :=
  if Reqb b 0 then Raise ZeroDivisionError else Ok (a / b).

End Py.
Export Py.

(** ** The host scene *)

Inductive SensorFit : Type := AUTO | HORIZONTAL | VERTICAL.

(** [cam.dof] *)
Record DofSettings : Type := mkDof {
  use_dof : bool;
  focus_object : option string;
  focus_distance : R;
  aperture_fstop : R;
  aperture_blades : Z;
  aperture_rotation : R;
  aperture_ratio : R
}.

(** [bpy.context.scene.camera.data], a [bpy.types.Camera] *)
Record Camera : Type := mkCamera {
  lens_unit : string;
  lens : R;
  angle : R;
  clip_start : R;
  clip_end : R;
  shift_x : R;
  shift_y : R;
  sensor_fit : SensorFit;
  sensor_width : R;
  sensor_height : R;
  dof : DofSettings
}.

(** [bpy.context.scene.render] *)
Record RenderSettings : Type := mkRender {
  resolution_x : Z;
  resolution_y : Z;
  pixel_aspect_x : R;
  pixel_aspect_y : R
}.

(** A matrix is the list of its rows. *)
Definition Matrix : Type := list (list R).

(** One call of [cam_ob.keyframe_insert(data_path=..., frame=...)]: the
    path, the frame, and the world matrix of the camera object at the time of
    the call, which is what the host reads the keyed value from. *)
Record Keyframe : Type := mkKeyframe {
  data_path : string;
  key_frame : Z;
  key_pose : Matrix
}.

(** The value [set_lens_distortion] hands to the global storage: the dict
    [{"mapping_coords": ..., "original_image_res": ...}].  [mapping_coords]
    is a 2 x N array, kept as its two rows. *)
Record DistortionData : Type := mkDistortionData {
  mapping_coords : list R * list R;
  original_image_res : Z * Z
}.

Record World : Type := mkWorld {
  frame_end : Z;
  matrix_world : Matrix;
  keyframes : list Keyframe;
  cam : Camera;
  render : RenderSettings;
  global_storage : gmap string DistortionData
}.

(** Attribute assignments. *)
Definition with_cam (f : Camera -> Camera) (w : World) : World :=
  mkWorld (frame_end w) (matrix_world w) (keyframes w) (f (cam w)) (render w)
          (global_storage w).
Definition with_render (f : RenderSettings -> RenderSettings) (w : World) : World :=
  mkWorld (frame_end w) (matrix_world w) (keyframes w) (cam w) (f (render w))
          (global_storage w).

Definition set_lens_unit (v : string) (c : Camera) : Camera :=
  mkCamera v (lens c) (angle c) (clip_start c) (clip_end c) (shift_x c) (shift_y c)
           (sensor_fit c) (sensor_width c) (sensor_height c) (dof c).
Definition set_lens (v : R) (c : Camera) : Camera :=
  mkCamera (lens_unit c) v (angle c) (clip_start c) (clip_end c) (shift_x c) (shift_y c)
           (sensor_fit c) (sensor_width c) (sensor_height c) (dof c).
Definition set_angle (v : R) (c : Camera) : Camera :=
  mkCamera (lens_unit c) (lens c) v (clip_start c) (clip_end c) (shift_x c) (shift_y c)
           (sensor_fit c) (sensor_width c) (sensor_height c) (dof c).
Definition set_clip (s e : R) (c : Camera) : Camera :=
  mkCamera (lens_unit c) (lens c) (angle c) s e (shift_x c) (shift_y c)
           (sensor_fit c) (sensor_width c) (sensor_height c) (dof c).
Definition set_shift (sx sy : R) (c : Camera) : Camera :=
  mkCamera (lens_unit c) (lens c) (angle c) (clip_start c) (clip_end c) sx sy
           (sensor_fit c) (sensor_width c) (sensor_height c) (dof c).
Definition set_resolution (x y : Z) (r : RenderSettings) : RenderSettings :=
  mkRender x y (pixel_aspect_x r) (pixel_aspect_y r).
Definition set_pixel_aspect (x y : R) (r : RenderSettings) : RenderSettings :=
  mkRender (resolution_x r) (resolution_y r) x y.

(** ** Computations on the scene *)

Definition M (A : Type) : Type := World -> World * result A.

Definition ret {A} (a : A) : M A := fun w => (w, Ok a).
Definition raise {A} (e : exn) : M A := fun w => (w, Raise e).
Definition bind {A B} (m : M A) (k : A -> M B) : M B :=
  fun w => match m w with
           | (w', Ok a) => k a w'
           | (w', Raise e) => (w', Raise e)
           end.
Definition lift {A} (r : result A) : M A := fun w => (w, r).
Definition modify (f : World -> World) : M unit := fun w => (f w, Ok tt).
Definition gets {A} (f : World -> A) : M A := fun w => (w, Ok (f w)).

Notation "'do' x <- m ; k" := (bind m (fun x => k))
  (at level 10, x name, m at level 100, k at level 200).
Notation "m ;;; k" := (bind m (fun _ => k))
  (at level 100, k at level 200, right associativity).

(** ** set_intrinsics_from_blender_params *)

Definition set_intrinsics_from_blender_params
    (lens_v : R) (image_width image_height : Z) (clip_start_v clip_end_v : R)
    (pixel_aspect_x_v pixel_aspect_y_v shift_x_v shift_y_v : R)
    (lens_unit_v : string) : M unit :=
  (if String.eqb lens_unit_v "MILLIMETERS" then
     modify (with_cam (set_lens_unit lens_unit_v)) ;;;
     (if Rltb lens_v 1 then raise (Exception_focal_length lens_v)
      else modify (with_cam (set_lens lens_v)))
   else if String.eqb lens_unit_v "FOV" then
     modify (with_cam (set_lens_unit lens_unit_v)) ;;;
     modify (with_cam (set_angle lens_v))
   else raise (Exception_lens_unit lens_unit_v)) ;;;
  modify (with_render (set_resolution image_width image_height)) ;;;
  modify (with_cam (set_clip clip_start_v clip_end_v)) ;;;
  modify (with_render (set_pixel_aspect pixel_aspect_x_v pixel_aspect_y_v)) ;;;
  modify (with_cam (set_shift shift_x_v shift_y_v)).

(** ** set_intrinsics_from_K_matrix and get_intrinsics_as_K_matrix *)

(** A 3 x 3 matrix, entry [kIJ] at row I and column J. *)
Record Matrix3 : Type := mkMatrix3 {
  k00 : R; k01 : R; k02 : R;
  k10 : R; k11 : R; k12 : R;
  k20 : R; k21 : R; k22 : R
}.

(** [[fx, 0, cx], [0, fy, cy], [0, 0, 1]] *)
Definition K_of (fx fy cx cy : R) : Matrix3 :=
  mkMatrix3 fx 0 cx 0 fy cy 0 0 1.

Definition get_sensor_size (c : Camera) : R :=
  match sensor_fit c with
  | VERTICAL => sensor_height c
  | _ => sensor_width c
  end.

Definition get_view_fac_in_px (c : Camera) (pixel_aspect_x_v pixel_aspect_y_v : R)
    (resolution_x_in_px resolution_y_in_px : Z) : result R :=
  let fit :=
    match sensor_fit c with
    | AUTO =>
        if Rleb (pixel_aspect_y_v * IZR resolution_y_in_px)
                (pixel_aspect_x_v * IZR resolution_x_in_px)
        then HORIZONTAL else VERTICAL
    | f => f
    end in
  match truediv pixel_aspect_y_v pixel_aspect_x_v with
  | Raise e => Raise e
  | Ok pixel_aspect_ratio =>
      match fit with
      | HORIZONTAL => Ok (IZR resolution_x_in_px)
      | _ => Ok (pixel_aspect_ratio * IZR resolution_y_in_px)
      end
  end.

(** The pixel aspect ratios chosen from the two focal lengths. *)
Definition pixel_aspects_of (fx fy : R) : result (R * R) :=
  if Rltb fy fx then
    match truediv fx fy with
    | Ok a => Ok (1, a)
    | Raise e => Raise e
    end
  else if Rltb fx fy then
    match truediv fy fx with
    | Ok a => Ok (a, 1)
    | Raise e => Raise e
    end
  else Ok (1, 1).

Definition default_clip_start : R := 1 / 10.
Definition default_clip_end : R := 1000.

Definition set_intrinsics_from_K_matrix (K : Matrix3) (image_width image_height : Z)
    (clip_start_v clip_end_v : R) : M unit :=
  do c <- gets cam;
  let fx := k00 K in let fy := k11 K in
  let cx := k02 K in let cy := k12 K in
  do pa <- lift (pixel_aspects_of fx fy);
  let pixel_aspect_x_v := fst pa in
  let pixel_aspect_y_v := snd pa in
  do pixel_aspect_ratio <- lift (truediv pixel_aspect_y_v pixel_aspect_x_v);
  do view_fac_in_px <-
    lift (get_view_fac_in_px c pixel_aspect_x_v pixel_aspect_y_v image_width image_height);
  let sensor_size_in_mm := get_sensor_size c in
  do f_in_mm <- lift (truediv (fx * sensor_size_in_mm) view_fac_in_px);
  do sx <- lift (truediv (cx - (IZR image_width - 1) / 2) (- view_fac_in_px));
  do sy0 <- lift (truediv (cy - (IZR image_height - 1) / 2) view_fac_in_px);
  let sy := sy0 * pixel_aspect_ratio in
  set_intrinsics_from_blender_params f_in_mm image_width image_height
    clip_start_v clip_end_v pixel_aspect_x_v pixel_aspect_y_v sx sy "MILLIMETERS".

Definition get_intrinsics_as_K_matrix : M Matrix3 :=
  do c <- gets cam;
  do r <- gets render;
  let f_in_mm := lens c in
  let resolution_x_in_px := resolution_x r in
  let resolution_y_in_px := resolution_y r in
  do pixel_aspect_ratio <- lift (truediv (pixel_aspect_y r) (pixel_aspect_x r));
  do view_fac_in_px <-
    lift (get_view_fac_in_px c (pixel_aspect_x r) (pixel_aspect_y r)
            resolution_x_in_px resolution_y_in_px);
  let sensor_size_in_mm := get_sensor_size c in
  do f1 <- lift (truediv f_in_mm sensor_size_in_mm);
  let fx := f1 * view_fac_in_px in
  do fy <- lift (truediv fx pixel_aspect_ratio);
  let cx := (IZR resolution_x_in_px - 1) / 2 - shift_x c * view_fac_in_px in
  do sy <- lift (truediv (shift_y c * view_fac_in_px) pixel_aspect_ratio);
  let cy := (IZR resolution_y_in_px - 1) / 2 + sy in
  ret (K_of fx fy cx cy).

(** ** get_fov *)

(** [K[0, 0]] is a numpy float: dividing by it does not raise.  For a focal
    length of zero numpy's quotient is infinite (or not a number) and the
    code returns pi (or not a number); these are no real numbers, and the
    definition is the code's only for focal lengths other than zero, which
    is where every property below uses it. *)
Definition get_fov : M (R * R) :=
  do K <- get_intrinsics_as_K_matrix;
  do r <- gets render;
  let fov_x := 2 * atan (IZR (resolution_x r) / 2 / k00 K) in
  let fov_y := 2 * atan (IZR (resolution_y r) / 2 / k11 K) in
  ret (fov_x, fov_y).

(** ** add_camera_pose *)

Definition set_matrix_world (m : Matrix) (w : World) : World :=
  mkWorld (frame_end w) m (keyframes w) (cam w) (render w) (global_storage w).
Definition set_frame_end (f : Z) (w : World) : World :=
  mkWorld f (matrix_world w) (keyframes w) (cam w) (render w) (global_storage w).
Definition keyframe_insert (path : string) (f : Z) (w : World) : World :=
  mkWorld (frame_end w) (matrix_world w)
          (mkKeyframe path f (matrix_world w) :: keyframes w)
          (cam w) (render w) (global_storage w).

Definition add_camera_pose (cam2world_matrix : Matrix) (frame : option Z) : M Z :=
  modify (set_matrix_world cam2world_matrix) ;;;
  do frame' <- match frame with
               | None => gets frame_end
               | Some f => ret f
               end;
  do fe <- gets frame_end;
  (if (fe <? frame' + 1)%Z then modify (set_frame_end (frame' + 1)%Z) else ret tt) ;;;
  modify (keyframe_insert "location" frame') ;;;
  modify (keyframe_insert "rotation_euler" frame') ;;;
  ret frame'.

(** ** add_depth_of_field *)

(** The camera is an argument of the call, not the camera of the scene: the
    function maps the camera to the camera after the call and the outcome. *)
Definition add_depth_of_field (camera : Camera) (focal_point_obj : option string)
    (fstop_value : R) (aperture_blades_v : Z) (aperture_rotation_v aperture_ratio_v : R)
    (focal_distance : R) : Camera * result unit :=
  let with_dof (f : DofSettings -> DofSettings) (c : Camera) : Camera :=
    mkCamera (lens_unit c) (lens c) (angle c) (clip_start c) (clip_end c)
             (shift_x c) (shift_y c) (sensor_fit c) (sensor_width c)
             (sensor_height c) (f (dof c)) in
  let c1 := with_dof (fun d => mkDof true (focus_object d) (focus_distance d)
                        (aperture_fstop d) (aperture_blades d) (aperture_rotation d)
                        (aperture_ratio d)) camera in
  let focus : result Camera :=
    match focal_point_obj with
    | Some o =>
        Ok (with_dof (fun d => mkDof (use_dof d) (Some o) (focus_distance d)
                        (aperture_fstop d) (aperture_blades d) (aperture_rotation d)
                        (aperture_ratio d)) c1)
    | None =>
        if Rleb 0 focal_distance then
          Ok (with_dof (fun d => mkDof (use_dof d) (focus_object d) focal_distance
                          (aperture_fstop d) (aperture_blades d) (aperture_rotation d)
                          (aperture_ratio d)) c1)
        else Raise RuntimeError_focal_point
    end in
  match focus with
  | Raise e => (c1, Raise e)
  | Ok c2 =>
      (with_dof (fun d => mkDof (use_dof d) (focus_object d) (focus_distance d)
                   fstop_value aperture_blades_v aperture_rotation_v aperture_ratio_v) c2,
       Ok tt)
  end.

(** ** numpy arrays

    A one-dimensional array is the list of its entries; the arithmetic of
    the code on arrays of one length is entry by entry. *)

Module Np.

(** [np.arange(0, n)] *)
Definition arange (n : Z) : list R :=
  map (fun i => IZR (Z.of_nat i)) (seq 0 (Z.to_nat n)).

(** [np.repeat(a, n)]: every entry n times in a row. *)
Definition repeat (a : list R) (n : Z) : list R :=
  flat_map (fun v => List.repeat v (Z.to_nat n)) a.

(** [np.tile(a, n)]: the whole array n times. *)
Definition tile (a : list R) (n : Z) : list R :=
  concat (List.repeat a (Z.to_nat n)).

(** [np.max] and [np.min]: an empty array has no maximum. *)
Definition max (a : list R) : result R :=
  match a with
  | [] => Raise ValueError_empty_reduction
  | v :: a' => Ok (fold_right Rmax v a')
  end.
Definition min (a : list R) : result R :=
  match a with
  | [] => Raise ValueError_empty_reduction
  | v :: a' => Ok (fold_right Rmin v a')
  end.

Definition hypot (a b : R) : R := sqrt (a * a + b * b).

(** [np.sign(v) * np.ceil(np.abs(v))]: an integral float, kept as the
    integer it is.  The ceiling is that of the exact real number: where the
    floats of the code round a coordinate that is an integer in exact
    arithmetic to a value just above it (4.4e-16 for 0, say), the code's
    ceiling is one more than this one.  The properties below therefore give
    the new resolution and the shift of the mapping in terms of this
    function, or bound them, and do not give them as numbers. *)
Definition sign (v : R) : Z :=
  if Rltb v 0 then (-1)%Z else if Rltb 0 v then 1%Z else 0%Z.
Definition sign_ceil_abs (v : R) : Z := (sign v * Zceil (Rabs v))%Z.

(** [np.linalg.inv] of a 3 x 3 matrix: the adjugate over the determinant;
    a singular matrix raises. *)
Definition det3 (m : Matrix3) : R :=
  k00 m * (k11 m * k22 m - k12 m * k21 m)
  - k01 m * (k10 m * k22 m - k12 m * k20 m)
  + k02 m * (k10 m * k21 m - k11 m * k20 m).

Definition inv (m : Matrix3) : result Matrix3 :=
  let d := det3 m in
  if Reqb d 0 then Raise LinAlgError_singular
  else Ok (mkMatrix3
    ((k11 m * k22 m - k12 m * k21 m) / d)
    ((k02 m * k21 m - k01 m * k22 m) / d)
    ((k01 m * k12 m - k02 m * k11 m) / d)
    ((k12 m * k20 m - k10 m * k22 m) / d)
    ((k00 m * k22 m - k02 m * k20 m) / d)
    ((k02 m * k10 m - k00 m * k12 m) / d)
    ((k10 m * k21 m - k11 m * k20 m) / d)
    ((k01 m * k20 m - k00 m * k21 m) / d)
    ((k00 m * k11 m - k01 m * k10 m) / d)).

(** [a @ b] for 3 x 3 matrices. *)
Definition matmul (a b : Matrix3) : Matrix3 :=
  mkMatrix3
    (k00 a * k00 b + k01 a * k10 b + k02 a * k20 b)
    (k00 a * k01 b + k01 a * k11 b + k02 a * k21 b)
    (k00 a * k02 b + k01 a * k12 b + k02 a * k22 b)
    (k10 a * k00 b + k11 a * k10 b + k12 a * k20 b)
    (k10 a * k01 b + k11 a * k11 b + k12 a * k21 b)
    (k10 a * k02 b + k11 a * k12 b + k12 a * k22 b)
    (k20 a * k00 b + k21 a * k10 b + k22 a * k20 b)
    (k20 a * k01 b + k21 a * k11 b + k22 a * k21 b)
    (k20 a * k02 b + k21 a * k12 b + k22 a * k22 b).

Definition eye : Matrix3 := mkMatrix3 1 0 0 0 1 0 0 0 1.

End Np.

(** ** GlobalStorage *)

(** Modelled from the spec: the class [GlobalStorage] of
    [src/main/GlobalStorage.py] is not among the sources.  The spec calls it
    "a small global key-value store for passing auxiliary distortion-mapping
    data between the intrinsics setup and a later post-processing step":
    [GlobalStorage.set(key, value)] binds the key to the value and leaves the
    other keys as they are. *)
Definition GlobalStorage_set (key : string) (value : DistortionData) (w : World) : World :=
  mkWorld (frame_end w) (matrix_world w) (keyframes w) (cam w) (render w)
          (<[key := value]> (global_storage w)).

(** ** set_lens_distortion *)

Record Coefficients : Type := mkCoefficients {
  k1 : R; k2 : R; k3 : R; p1 : R; p2 : R
}.

(** What the code computes before the loop (lines 307-329). *)
Record Setup : Type := mkSetup {
  original_image_resolution : Z * Z;
  camera_K_matrix : Matrix3;
  desired_dis_res : Z * Z;
  P_und : list R * list R
}.

Definition fx_of (s : Setup) : R := k00 (camera_K_matrix s).
Definition fy_of (s : Setup) : R := k11 (camera_K_matrix s).
Definition cx_of (s : Setup) : R := k02 (camera_K_matrix s).
Definition cy_of (s : Setup) : R := k12 (camera_K_matrix s).

(** Rows 0 and 1 of [np.linalg.inv(K) @ np.vstack((column, row, ones))];
    the row of ones is as long as [column] and [row] (for a resolution that
    is not negative, which is all the host stores). *)
Definition project (Kinv : Matrix3) (column row : list R) : list R * list R :=
  (zip_with (fun c r => k00 Kinv * c + k01 Kinv * r + k02 Kinv * 1) column row,
   zip_with (fun c r => k10 Kinv * c + k11 Kinv * r + k12 Kinv * 1) column row).

Definition distortion_setup : M Setup :=
  do r0 <- gets render;
  let original := (resolution_y r0, resolution_x r0) in
  do K <- get_intrinsics_as_K_matrix;
  do r <- gets render;
  let desired := (resolution_y r, resolution_x r) in
  let row := Np.repeat (Np.arange (fst desired)) (snd desired) in
  let column := Np.tile (Np.arange (snd desired)) (fst desired) in
  do Kinv <- lift (Np.inv K);
  ret (mkSetup original K desired (project Kinv column row)).

(** The variables of the loop.  [res] is the Python list [res] with its
    last entry first: [res[-1]] is the head. *)
Record LoopState : Type := mkLoopState {
  x : list R;
  y : list R;
  res : list R;
  it : nat;
  factor : R
}.

Definition res_last (st : LoopState) : R := hd 0 (res st).

Definition init_state (s : Setup) : LoopState :=
  mkLoopState (fst (P_und s)) (snd (P_und s)) [1000] 0 1.

Section Loop.
Variable k : Coefficients.
Variable s : Setup.

Definition radial_part (r2 : R) : R :=
  1 + k1 k * r2 + k2 k * r2 * r2 + k3 k * r2 * r2 * r2.

Definition distort_x (xv yv : R) : R :=
  let r2 := xv * xv + yv * yv in
  xv * radial_part r2 + 2 * p2 k * xv * yv + p1 k * (r2 + 2 * (xv * xv)).

Definition distort_y (xv yv : R) : R :=
  let r2 := xv * xv + yv * yv in
  yv * radial_part r2 + 2 * p1 k * xv * yv + p2 k * (r2 + 2 * (yv * yv)).

(** [x_ - P_und[0, :]] and [y_ - P_und[1, :]] at the arrays [xs], [ys]. *)
Definition delta_x (xs ys : list R) : list R :=
  zip_with Rminus (zip_with distort_x xs ys) (fst (P_und s)).
Definition delta_y (xs ys : list R) : list R :=
  zip_with Rminus (zip_with distort_y xs ys) (snd (P_und s)).

(** The residual of every pixel, in pixels. *)
Definition residuals (xs ys : list R) : list R :=
  zip_with Np.hypot (map (Rmult (fx_of s)) (delta_x xs ys))
                    (map (Rmult (fy_of s)) (delta_y xs ys)).

(** [error] of line 337. *)
Definition error_of (xs ys : list R) : result R := Np.max (residuals xs ys).

(** One pass through the body of the [while] (lines 332-353). *)
Definition loop_body (st : LoopState) : result LoopState :=
  match error_of (x st) (y st) with
  | Raise e => Raise e
  | Ok error =>
      let res' := error :: res st in
      let it' := S (it st) in
      let stalled := (1 <? it')%nat && Rltb (res_last st * (999 / 1000)) error in
      let factor' := if stalled then factor st * (5 / 10) else factor st in
      if stalled && (1000 <? it')%nat then Raise Exception_stalled
      else if stalled && Rltb 1000000000 error then Raise Exception_unstable
      else
        Ok (mkLoopState
              (zip_with (fun a d => a - d * factor') (x st) (delta_x (x st) (y st)))
              (zip_with (fun a d => a - d * factor') (y st) (delta_y (x st) (y st)))
              res' it' factor')
  end.

(** [while res[-1] > 0.2: ...]; [None] when the fuel does not suffice. *)
Fixpoint distortion_loop (fuel : nat) (st : LoopState) : option (result LoopState) :=
  match fuel with
  | O => None
  | S fuel' =>
      if Rltb (2 / 10) (res_last st) then
        match loop_body st with
        | Raise e => Some (Raise e)
        | Ok st' => distortion_loop fuel' st'
        end
      else Some (Ok st)
  end.

(** [u] and [v] of lines 357-358. *)
Definition u_of (st : LoopState) : list R := map (fun a => fx_of s * a + cx_of s) (x st).
Definition v_of (st : LoopState) : list R := map (fun a => fy_of s * a + cy_of s) (y st).

End Loop.

(** What the code does after the loop (lines 355-396). *)
Definition distortion_finish (s : Setup) (st : LoopState) : M unit :=
  let cx := cx_of s in
  let cy := cy_of s in
  let u := u_of s st in
  let v := v_of s st in
  do min_u <- lift (Np.min u);
  let min_und_column_needed := Np.sign_ceil_abs min_u in
  do max_u <- lift (Np.max u);
  let max_und_column_needed := Np.sign_ceil_abs max_u in
  do min_v <- lift (Np.min v);
  let min_und_row_needed := Np.sign_ceil_abs min_v in
  do max_v <- lift (Np.max v);
  let max_und_row_needed := Np.sign_ceil_abs max_v in
  let columns_needed := (max_und_column_needed - (min_und_column_needed - 1))%Z in
  let rows_needed := (max_und_row_needed - (min_und_row_needed - 1))%Z in
  let cx_new := cx - IZR (min_und_column_needed - 1) + 1 in
  let cy_new := cy - IZR (min_und_row_needed - 1) + 1 in
  let new_image_resolution := ((columns_needed + 2)%Z, (rows_needed + 2)%Z) in
  let mapping := (map (fun a => a + (cy_new - cy)) v,
                  map (fun a => a + (cx_new - cx)) u) in
  do K <- get_intrinsics_as_K_matrix;
  let camera_changed_K_matrix :=
    mkMatrix3 (k00 K) (k01 K) cx_new (k10 K) (k11 K) cy_new (k20 K) (k21 K) (k22 K) in
  do c <- gets cam;
  set_intrinsics_from_K_matrix camera_changed_K_matrix
    (fst new_image_resolution) (snd new_image_resolution)
    (clip_start c) (clip_end c) ;;;
  modify (GlobalStorage_set "_lens_distortion_is_used"
            (mkDistortionData mapping (original_image_resolution s))).

(** The whole function; [None] when the fuel given to the loop does not
    suffice. *)
Definition set_lens_distortion (fuel : nat) (k : Coefficients)
    (w : World) : World * option (result unit) :=
  match distortion_setup w with
  | (w1, Raise e) => (w1, Some (Raise e))
  | (w1, Ok s) =>
      match distortion_loop k s fuel (init_state s) with
      | None => (w1, None)
      | Some (Raise e) => (w1, Some (Raise e))
      | Some (Ok st) =>
          match distortion_finish s st w1 with
          | (w2, r) => (w2, Some r)
          end
      end
  end.

(** ** The states the loop passes through *)

(** [iterates k s st]: the loop, started as the code starts it, is at its
    head with the variables [st]. *)
Inductive iterates (k : Coefficients) (s : Setup) : LoopState -> Prop :=
  | iterates_init : iterates k s (init_state s)
  | iterates_step st st' :
      iterates k s st ->
      2 / 10 < res_last st ->
      loop_body k s st = Ok st' ->
      iterates k s st'.


(** ** Example scenes *)

Definition identity_matrix : Matrix :=
  [[1; 0; 0; 0]; [0; 1; 0; 0]; [0; 0; 1; 0]; [0; 0; 0; 1]].

Definition default_dof : DofSettings := mkDof false None 10 (28 / 10) 0 0 1.

(** A 50 mm lens on a 36 mm x 24 mm sensor, 1920 x 1080 square pixels. *)
Definition default_world : World :=
  mkWorld 250 identity_matrix []
    (mkCamera "MILLIMETERS" 50 (2 * atan (36 / 2 / 50)) (1 / 10) 100 0 0
       AUTO 36 24 default_dof)
    (mkRender 1920 1080 1 1) empty.

(** A scene rendered as one pixel, with focal length [f] in pixels and the
    pixel at the point [(p, 0)] of the plane z = 1. *)
Definition one_pixel_world (f p : R) : World :=
  mkWorld 250 identity_matrix []
    (mkCamera "MILLIMETERS" (36 * f) 0 (1 / 10) 100 (p * f) 0
       HORIZONTAL 36 24 default_dof)
    (mkRender 1 1 1 1) empty.

Definition one_pixel_setup (f p : R) : Setup :=
  mkSetup (1%Z, 1%Z) (K_of f f (- (p * f)) 0) (1%Z, 1%Z) ([p], [0]).

(** Tangential distortion along x only. *)
Definition tangential (p1_v : R) : Coefficients := mkCoefficients 0 0 0 p1_v 0.

(** ** The pose loop of the example scripts *)

(** [for line in f.readlines(): ... CameraUtility.add_camera_pose(matrix_world)]
    of [examples/basics/semantic_segmentation/main.py] (lines 39-44) and
    [examples/datasets/suncg_basic/main.py] (lines 35-41): one call of
    [add_camera_pose] per line of the camera file, without a frame argument.
    The matrix of a line is built by [MathUtility], which is not among the
    sources: the matrices are the input here.  The scripts drop the frames
    the calls return; they are collected to speak about them. *)
Fixpoint add_camera_poses (matrices : list Matrix) : M (list Z) :=
  match matrices with
  | [] => ret []
  | matrix_world_v :: rest =>
      do f <- add_camera_pose matrix_world_v None;
      do fs <- add_camera_poses rest;
      ret (f :: fs)
  end.

(** [set_lens_distortion(0, 0, 0, 0, 0)] *)
Definition no_distortion : Coefficients := mkCoefficients 0 0 0 0 0.

(** * Properties *)

(** ** Comparisons and division *)

Lemma Rltb_true a b : a < b -> Rltb a b = true.
Proof. intros H. unfold Rltb. destruct (Rlt_dec a b); [reflexivity | contradiction]. Qed.

Lemma Rltb_false a b : b <= a -> Rltb a b = false.
Proof. intros H. unfold Rltb. destruct (Rlt_dec a b); [lra | reflexivity]. Qed.

Lemma Rltb_spec a b : reflect (a < b) (Rltb a b).
Proof. unfold Rltb. destruct (Rlt_dec a b); constructor; assumption. Qed.

Lemma Rleb_true a b : a <= b -> Rleb a b = true.
Proof. intros H. unfold Rleb. destruct (Rle_dec a b); [reflexivity | contradiction]. Qed.

Lemma Rleb_false a b : b < a -> Rleb a b = false.
Proof. intros H. unfold Rleb. destruct (Rle_dec a b); [lra | reflexivity]. Qed.

Lemma Rleb_spec a b : reflect (a <= b) (Rleb a b).
Proof. unfold Rleb. destruct (Rle_dec a b); constructor; assumption. Qed.

Lemma truediv_ok a b : b <> 0 -> truediv a b = Ok (a / b).
Proof.
  intros H. unfold truediv, Reqb.
  destruct (Req_dec_T b 0); [contradiction | reflexivity].
Qed.

Lemma truediv_zero a : truediv a 0 = Raise ZeroDivisionError.
Proof.
  unfold truediv, Reqb. destruct (Req_dec_T 0 0); [reflexivity | contradiction].
Qed.

Lemma truediv_inv a b q : truediv a b = Ok q -> b <> 0 /\ q = a / b.
Proof.
  unfold truediv, Reqb. destruct (Req_dec_T b 0); [discriminate |].
  intros H. injection H as <-. split; [assumption | reflexivity].
Qed.

(** ** set_intrinsics_from_blender_params: when it raises *)

(** C2.  A call of [set_intrinsics_from_blender_params] raises exactly when
    the lens unit is ["MILLIMETERS"] and the lens is below 1, or the lens
    unit is neither ["MILLIMETERS"] nor ["FOV"]; every other call returns
    normally. *)
Theorem set_intrinsics_from_blender_params_raises_iff :
  forall (lens_v : R) (image_width image_height : Z) (clip_start_v clip_end_v : R)
         (pixel_aspect_x_v pixel_aspect_y_v shift_x_v shift_y_v : R)
         (lens_unit_v : string) (w : World),
    let r := snd (set_intrinsics_from_blender_params lens_v image_width image_height
                    clip_start_v clip_end_v pixel_aspect_x_v pixel_aspect_y_v
                    shift_x_v shift_y_v lens_unit_v w) in
    ((exists e, r = Raise e) <->
       (lens_unit_v = "MILLIMETERS"%string /\ lens_v < 1) \/
       (lens_unit_v <> "MILLIMETERS"%string /\ lens_unit_v <> "FOV"%string)) /\
    ((forall e, r <> Raise e) <-> r = Ok tt).
Proof.
  intros. subst r. unfold set_intrinsics_from_blender_params.
  destruct (String.eqb_spec lens_unit_v "MILLIMETERS") as [Hm | Hm].
  - destruct (Rltb_spec lens_v 1) as [Hl | Hl]; cbn.
    + split; split.
      * intros _. left. split; assumption.
      * intros _. eexists. reflexivity.
      * intros H. exfalso. eapply H. reflexivity.
      * discriminate.
    + split; split.
      * intros [e He]. discriminate.
      * intros [[_ H] | [H _]]; contradiction.
      * reflexivity.
      * intros _ e. discriminate.
  - destruct (String.eqb_spec lens_unit_v "FOV") as [Hf | Hf]; cbn.
    + split; split.
      * intros [e He]. discriminate.
      * intros [[H _] | [_ H]]; contradiction.
      * reflexivity.
      * intros _ e. discriminate.
    + split; split.
      * intros _. right. split; assumption.
      * intros _. eexists. reflexivity.
      * intros H. exfalso. eapply H. reflexivity.
      * discriminate.
Qed.

(** ** The K matrix *)

(** What a returning call of [set_intrinsics_from_K_matrix] computed and
    stored. *)
Lemma set_intrinsics_from_K_matrix_inv K iw ih cs ce w w' :
  set_intrinsics_from_K_matrix K iw ih cs ce w = (w', Ok tt) ->
  exists pax pay par vf f sx sy0,
    pixel_aspects_of (k00 K) (k11 K) = Ok (pax, pay) /\
    truediv pay pax = Ok par /\
    get_view_fac_in_px (cam w) pax pay iw ih = Ok vf /\
    truediv (k00 K * get_sensor_size (cam w)) vf = Ok f /\
    truediv (k02 K - (IZR iw - 1) / 2) (- vf) = Ok sx /\
    truediv (k12 K - (IZR ih - 1) / 2) vf = Ok sy0 /\
    1 <= f /\
    w' = mkWorld (frame_end w) (matrix_world w) (keyframes w)
           (set_shift sx (sy0 * par)
              (set_clip cs ce (set_lens f (set_lens_unit "MILLIMETERS" (cam w)))))
           (mkRender iw ih pax pay) (global_storage w).
Proof.
  unfold set_intrinsics_from_K_matrix, bind, gets, lift.
  destruct (pixel_aspects_of (k00 K) (k11 K)) as [[pax pay] | e] eqn:Epa; [| discriminate].
  cbn [fst snd].
  destruct (truediv pay pax) as [par | e] eqn:Epar; [| discriminate].
  destruct (get_view_fac_in_px (cam w) pax pay iw ih) as [vf | e] eqn:Evf; [| discriminate].
  destruct (truediv (k00 K * get_sensor_size (cam w)) vf) as [f | e] eqn:Ef; [| discriminate].
  destruct (truediv (k02 K - (IZR iw - 1) / 2) (- vf)) as [sx | e] eqn:Esx; [| discriminate].
  destruct (truediv (k12 K - (IZR ih - 1) / 2) vf) as [sy0 | e] eqn:Esy; [| discriminate].
  unfold set_intrinsics_from_blender_params, bind, modify, raise.
  cbn [String.eqb Ascii.eqb Bool.eqb].
  destruct (Rltb_spec f 1) as [Hf | Hf]; [discriminate |].
  intros H. injection H as <-.
  exists pax, pay, par, vf, f, sx, sy0.
  repeat split; try reflexivity; try assumption. apply Rnot_lt_le, Hf.
Qed.

Lemma pixel_aspects_of_pos fx fy pax pay :
  0 < fx -> 0 < fy ->
  pixel_aspects_of fx fy = Ok (pax, pay) ->
  1 <= pax /\ 1 <= pay /\
  (fy < fx -> pay = fx / fy /\ pax = 1) /\
  (fx < fy -> pax = fy / fx /\ pay = 1) /\
  (fx = fy -> pax = 1 /\ pay = 1).
Proof.
  intros Hfx Hfy. unfold pixel_aspects_of.
  destruct (Rltb_spec fy fx) as [H1 | H1].
  - rewrite truediv_ok by lra. intros H. injection H as <- <-.
    assert (1 <= fx / fy).
    { apply Rmult_le_reg_r with fy; [assumption |].
      unfold Rdiv. rewrite Rmult_assoc, Rinv_l by lra. lra. }
    repeat split; try lra.
  - destruct (Rltb_spec fx fy) as [H2 | H2].
    + rewrite truediv_ok by lra. intros H. injection H as <- <-.
      assert (1 <= fy / fx).
      { apply Rmult_le_reg_r with fx; [assumption |].
        unfold Rdiv. rewrite Rmult_assoc, Rinv_l by lra. lra. }
      repeat split; try lra.
    + intros H. injection H as <- <-. repeat split; try lra.
Qed.

Lemma pixel_aspects_of_ratio fx fy pax pay :
  0 < fx -> 0 < fy ->
  pixel_aspects_of fx fy = Ok (pax, pay) ->
  pay / pax = fx / fy.
Proof.
  intros Hfx Hfy. unfold pixel_aspects_of.
  destruct (Rltb_spec fy fx) as [H1 | H1].
  - rewrite truediv_ok by lra. intros H. injection H as <- <-. field. lra.
  - destruct (Rltb_spec fx fy) as [H2 | H2].
    + rewrite truediv_ok by lra. intros H. injection H as <- <-. field. lra.
    + intros H. injection H as <- <-.
      assert (fx = fy) by lra. subst fy. field. lra.
Qed.

Lemma get_view_fac_in_px_pos c pax pay iw ih vf :
  0 < pax -> 0 < pay -> (0 < iw)%Z -> (0 < ih)%Z ->
  get_view_fac_in_px c pax pay iw ih = Ok vf ->
  0 < vf.
Proof.
  intros Hx Hy Hw Hh. unfold get_view_fac_in_px.
  rewrite truediv_ok by lra.
  assert (0 < IZR iw) by (apply IZR_lt; assumption).
  assert (0 < IZR ih) by (apply IZR_lt; assumption).
  assert (0 < pay / pax) by (apply Rdiv_lt_0_compat; assumption).
  assert (0 < pay / pax * IZR ih) by (apply Rmult_lt_0_compat; assumption).
  destruct (sensor_fit c);
    [destruct (Rleb _ _) | |]; intros E; injection E as <-; assumption.
Qed.

(** The view factor depends on the camera through its sensor fit only. *)
Lemma get_view_fac_in_px_sensor_fit c c' pax pay iw ih :
  sensor_fit c' = sensor_fit c ->
  get_view_fac_in_px c' pax pay iw ih = get_view_fac_in_px c pax pay iw ih.
Proof. intros H. unfold get_view_fac_in_px. rewrite H. reflexivity. Qed.

(** [get_intrinsics_as_K_matrix] only reads the scene. *)
Lemma get_intrinsics_as_K_matrix_reads w : fst (get_intrinsics_as_K_matrix w) = w.
Proof.
  unfold get_intrinsics_as_K_matrix, bind, gets, lift, ret.
  repeat (match goal with |- context [match ?t with _ => _ end] => destruct t end;
          try reflexivity).
Qed.

(** The K matrix of a scene whose divisors are not zero. *)
Lemma get_intrinsics_as_K_matrix_eq w par vf :
  truediv (pixel_aspect_y (render w)) (pixel_aspect_x (render w)) = Ok par ->
  get_view_fac_in_px (cam w) (pixel_aspect_x (render w)) (pixel_aspect_y (render w))
    (resolution_x (render w)) (resolution_y (render w)) = Ok vf ->
  get_sensor_size (cam w) <> 0 ->
  par <> 0 ->
  get_intrinsics_as_K_matrix w =
    (w, Ok (K_of (lens (cam w) / get_sensor_size (cam w) * vf)
                 (lens (cam w) / get_sensor_size (cam w) * vf / par)
                 ((IZR (resolution_x (render w)) - 1) / 2 - shift_x (cam w) * vf)
                 ((IZR (resolution_y (render w)) - 1) / 2
                  + shift_y (cam w) * vf / par))).
Proof.
  intros Epar Evf Hs Hp.
  unfold get_intrinsics_as_K_matrix, bind, gets, lift, ret.
  rewrite Epar, Evf.
  rewrite !truediv_ok by assumption. reflexivity.
Qed.

(** C1.  Setting the intrinsics from a K matrix with positive focal lengths
    and a positive image size, and reading them back, gives the same fx, fy,
    cx and cy, whenever the setting call returns. *)
Theorem K_matrix_round_trip :
  forall (fx fy cx cy : R) (image_width image_height : Z)
         (clip_start_v clip_end_v : R) (w w' : World),
    0 < fx -> 0 < fy -> (0 < image_width)%Z -> (0 < image_height)%Z ->
    set_intrinsics_from_K_matrix (K_of fx fy cx cy) image_width image_height
      clip_start_v clip_end_v w = (w', Ok tt) ->
    get_intrinsics_as_K_matrix w' = (w', Ok (K_of fx fy cx cy)) /\
    sensor_fit (cam w') = sensor_fit (cam w) /\
    sensor_width (cam w') = sensor_width (cam w) /\
    sensor_height (cam w') = sensor_height (cam w).
Proof.
  intros fx fy cx cy iw ih cs ce w w' Hfx Hfy Hw Hh Hset.
  apply set_intrinsics_from_K_matrix_inv in Hset.
  destruct Hset as (pax & pay & par & vf & f & sx & sy0
                    & Epa & Epar & Evf & Ef & Esx & Esy & Hf & ->).
  cbn [k00 k11 k02 k12 K_of] in *.
  split; [| repeat split].
  pose proof (pixel_aspects_of_pos _ _ _ _ Hfx Hfy Epa) as (Hpx & Hpy & _).
  pose proof (pixel_aspects_of_ratio _ _ _ _ Hfx Hfy Epa) as Hratio.
  assert (Hvf : 0 < vf)
    by (eapply get_view_fac_in_px_pos; [| | exact Hw | exact Hh | exact Evf]; lra).
  apply truediv_inv in Ef as [_ ->].
  apply truediv_inv in Esx as [_ ->].
  apply truediv_inv in Esy as [_ ->].
  pose proof (truediv_inv _ _ _ Epar) as [Hpax ->].
  assert (Hparpos : 0 < fx / fy) by (apply Rdiv_lt_0_compat; assumption).
  set (sensor := get_sensor_size (cam w)) in *.
  assert (Hsensor : sensor <> 0).
  { intros E. rewrite E in Hf. unfold Rdiv in Hf.
    rewrite Rmult_0_r, Rmult_0_l in Hf. lra. }
  erewrite get_intrinsics_as_K_matrix_eq; cbn; try eassumption.
  - unfold K_of. rewrite Hratio.
    change (get_sensor_size (set_shift _ _ _)) with sensor.
    f_equal. f_equal. f_equal; field; repeat split; lra.
  - rewrite Hratio. lra.
Qed.

(** Deciding the comparisons and divisions of a run on given numbers. *)
Ltac py_decide :=
  repeat first
    [ rewrite Rltb_true by lra
    | rewrite Rltb_false by lra
    | rewrite Rleb_true by lra
    | rewrite Rleb_false by lra
    | rewrite truediv_ok by lra
    | progress cbn [fst snd] ].

Ltac py_run :=
  unfold set_intrinsics_from_K_matrix, get_intrinsics_as_K_matrix,
    set_intrinsics_from_blender_params, pixel_aspects_of, get_view_fac_in_px,
    get_sensor_size, bind, gets, lift, modify, ret, raise;
  cbn; py_decide.

Lemma set_intrinsics_from_K_matrix_example :
  exists w',
    set_intrinsics_from_K_matrix (K_of 1000 1000 320 240) 640 480
      default_clip_start default_clip_end default_world = (w', Ok tt).
Proof.
  py_run. eexists. reflexivity.
Qed.

(** For positive focal lengths and a positive image size the setting call
    returns exactly when the focal length it derives, in millimeters, is at
    least 1. *)
Lemma set_intrinsics_from_K_matrix_returns_iff fx fy cx cy iw ih cs ce w :
  0 < fx -> 0 < fy -> (0 < iw)%Z -> (0 < ih)%Z ->
  exists pax pay vf,
    pixel_aspects_of fx fy = Ok (pax, pay) /\
    get_view_fac_in_px (cam w) pax pay iw ih = Ok vf /\
    ((exists w', set_intrinsics_from_K_matrix (K_of fx fy cx cy) iw ih cs ce w
                 = (w', Ok tt))
     <-> 1 <= fx * get_sensor_size (cam w) / vf).
Proof.
  intros Hfx Hfy Hw Hh.
  assert (Hpa : exists pax pay, pixel_aspects_of fx fy = Ok (pax, pay)).
  { unfold pixel_aspects_of.
    destruct (Rltb fy fx); [rewrite truediv_ok by lra; eauto |].
    destruct (Rltb fx fy); [rewrite truediv_ok by lra; eauto | eauto]. }
  destruct Hpa as (pax & pay & Epa).
  pose proof (pixel_aspects_of_pos _ _ _ _ Hfx Hfy Epa) as (Hpx & Hpy & _).
  assert (Hvf : exists vf, get_view_fac_in_px (cam w) pax pay iw ih = Ok vf).
  { unfold get_view_fac_in_px. rewrite truediv_ok by lra.
    destruct (sensor_fit (cam w)); [destruct (Rleb _ _) | |]; eauto. }
  destruct Hvf as (vf & Evf).
  assert (Hpos : 0 < vf)
    by (eapply get_view_fac_in_px_pos; [| | exact Hw | exact Hh | exact Evf]; lra).
  exists pax, pay, vf. split; [assumption |]. split; [assumption |]. split.
  - intros [w' Hset]. apply set_intrinsics_from_K_matrix_inv in Hset.
    destruct Hset as (pax' & pay' & par & vf' & f & sx & sy0
                      & Epa' & _ & Evf' & Ef & _ & _ & Hf & _).
    cbn [k00 k11 K_of] in *.
    rewrite Epa in Epa'. injection Epa' as <- <-.
    rewrite Evf in Evf'. injection Evf' as <-.
    apply truediv_inv in Ef as [_ ->]. assumption.
  - intros Hf.
    unfold set_intrinsics_from_K_matrix, bind, gets, lift.
    cbn [k00 k11 k02 k12 K_of]. rewrite Epa. cbn [fst snd].
    rewrite truediv_ok by lra. rewrite Evf.
    rewrite !truediv_ok by lra.
    unfold set_intrinsics_from_blender_params, bind, modify, raise.
    cbn [String.eqb Ascii.eqb Bool.eqb].
    rewrite Rltb_false by assumption.
    eexists. reflexivity.
Qed.

Lemma K_matrix_round_trip_witness :
  exists w',
    set_intrinsics_from_K_matrix (K_of 1000 1000 320 240) 640 480
      default_clip_start default_clip_end default_world = (w', Ok tt) /\
    get_intrinsics_as_K_matrix w' = (w', Ok (K_of 1000 1000 320 240)).
Proof.
  destruct set_intrinsics_from_K_matrix_example as [w' H].
  exists w'. split; [exact H |].
  apply (K_matrix_round_trip 1000 1000 320 240 640 480
           default_clip_start default_clip_end default_world w');
    [lra | lra | lia | lia | exact H].
Defined.

(** ** Pixel aspect ratios *)

(** C9, as stated, fails: with fx = 1000 and fy = -1000 the call returns and
    has stored the pixel aspect ratio fx / fy = -1 along y. *)
Lemma pixel_aspect_negative_focal_length :
  exists w',
    set_intrinsics_from_K_matrix (K_of 1000 (-1000) 320 240) 640 480
      default_clip_start default_clip_end default_world = (w', Ok tt) /\
    pixel_aspect_y (render w') < 1.
Proof.
  py_run. eexists. split; [reflexivity |]. cbn. lra.
Qed.

(** The pixel aspect ratios chosen for focal lengths of any sign. *)
Lemma pixel_aspects_of_cases fx fy pax pay :
  pixel_aspects_of fx fy = Ok (pax, pay) ->
  (pax = 1 \/ pay = 1) /\
  (fy < fx -> fy <> 0 /\ pay = fx / fy /\ pax = 1) /\
  (fx < fy -> fx <> 0 /\ pax = fy / fx /\ pay = 1) /\
  (fx = fy -> pax = 1 /\ pay = 1).
Proof.
  unfold pixel_aspects_of.
  destruct (Rltb_spec fy fx) as [H1 | H1].
  - destruct (truediv fx fy) as [a | e] eqn:E; [| discriminate].
    apply truediv_inv in E as [Hz ->]. intros H. injection H as <- <-.
    split; [left; reflexivity |].
    split; [intros _; repeat split; assumption |].
    split; intros H; exfalso; lra.
  - destruct (Rltb_spec fx fy) as [H2 | H2].
    + destruct (truediv fy fx) as [a | e] eqn:E; [| discriminate].
      apply truediv_inv in E as [Hz ->]. intros H. injection H as <- <-.
      split; [right; reflexivity |].
      split; [intros H; exfalso; lra |].
      split; [intros _; repeat split; assumption |].
      intros H; exfalso; lra.
    + intros H. injection H as <- <-.
      split; [left; reflexivity |].
      split; [intros H; exfalso; lra |].
      split; [intros H; exfalso; lra |].
      intros _. split; reflexivity.
Qed.

Lemma Rdiv_ge_1_pos a b : b < a -> b <> 0 -> (1 <= a / b <-> 0 < b).
Proof.
  intros Hab Hb. split.
  - intros H. destruct (Rlt_or_le 0 b) as [Hpos | Hneg]; [assumption | exfalso].
    assert (Hb' : b < 0) by lra.
    assert (Hinv : / b < 0) by (apply Rinv_lt_0_compat; assumption).
    assert (Heq : a / b * b = a) by (field; assumption).
    assert (a / b * b <= 1 * b).
    { apply Rmult_le_compat_neg_l with (r := b) in H; lra. }
    lra.
  - intros Hpos.
    apply Rmult_le_reg_r with b; [assumption |].
    replace (a / b * b) with a by (field; assumption). lra.
Qed.

(** C9, amended.  Whatever the signs of fx and fy, a call of
    [set_intrinsics_from_K_matrix] that returns has stored pixel aspect
    ratios of which at least one is 1: fx / fy along y and 1 along x when
    fx > fy, fy / fx along x and 1 along y when fx < fy, and 1 for both when
    they are equal.  Both are at least 1 exactly when fx = fy or both focal
    lengths are positive. *)
Theorem set_intrinsics_from_K_matrix_pixel_aspect :
  forall (K : Matrix3) (image_width image_height : Z)
         (clip_start_v clip_end_v : R) (w w' : World),
    set_intrinsics_from_K_matrix K image_width image_height
      clip_start_v clip_end_v w = (w', Ok tt) ->
    let pax := pixel_aspect_x (render w') in
    let pay := pixel_aspect_y (render w') in
    (pax = 1 \/ pay = 1) /\
    (k11 K < k00 K -> pay = k00 K / k11 K /\ pax = 1) /\
    (k00 K < k11 K -> pax = k11 K / k00 K /\ pay = 1) /\
    (k00 K = k11 K -> pax = 1 /\ pay = 1) /\
    ((1 <= pax /\ 1 <= pay) <-> (k00 K = k11 K \/ (0 < k00 K /\ 0 < k11 K))).
Proof.
  intros K iw ih cs ce w w' Hset.
  apply set_intrinsics_from_K_matrix_inv in Hset.
  destruct Hset as (pax & pay & par & vf & f & sx & sy0
                    & Epa & _ & _ & _ & _ & _ & _ & ->).
  cbn [render pixel_aspect_x pixel_aspect_y].
  destruct (pixel_aspects_of_cases _ _ _ _ Epa) as (Hone & Hgt & Hlt & Heq).
  split; [assumption |].
  split; [intros H; apply Hgt in H; tauto |].
  split; [intros H; apply Hlt in H; tauto |].
  split; [assumption |].
  destruct (Rtotal_order (k00 K) (k11 K)) as [H | [H | H]].
  - destruct (Hlt H) as (Hz & -> & ->).
    pose proof (Rdiv_ge_1_pos _ _ H Hz) as Hiff.
    split.
    + intros [Hx _]. right. apply Hiff in Hx. split; lra.
    + intros [He | [Hx _]]; [lra |]. split; [apply Hiff; assumption | lra].
  - destruct (Heq H) as [-> ->]. split; [intros _; left; assumption | intros _; lra].
  - destruct (Hgt H) as (Hz & -> & ->).
    pose proof (Rdiv_ge_1_pos _ _ H Hz) as Hiff.
    split.
    + intros [_ Hy]. right. apply Hiff in Hy. split; lra.
    + intros [He | [_ Hy]]; [lra |]. split; [lra | apply Hiff; assumption].
Qed.

Lemma set_intrinsics_from_K_matrix_example_wide :
  exists w',
    set_intrinsics_from_K_matrix (K_of 1000 500 320 240) 640 480
      default_clip_start default_clip_end default_world = (w', Ok tt).
Proof.
  py_run. eexists. reflexivity.
Qed.

Lemma set_intrinsics_from_K_matrix_pixel_aspect_witness :
  exists w',
    set_intrinsics_from_K_matrix (K_of 1000 500 320 240) 640 480
      default_clip_start default_clip_end default_world = (w', Ok tt) /\
    pixel_aspect_y (render w') = 1000 / 500 /\ pixel_aspect_x (render w') = 1 /\
    1 <= pixel_aspect_x (render w') /\ 1 <= pixel_aspect_y (render w').
Proof.
  destruct set_intrinsics_from_K_matrix_example_wide as [w' H].
  exists w'. split; [exact H |].
  destruct (set_intrinsics_from_K_matrix_pixel_aspect
              (K_of 1000 500 320 240) 640 480
              default_clip_start default_clip_end default_world w' H)
    as (_ & Hgt & _ & _ & Hge).
  cbn [k00 k11 K_of] in Hgt, Hge.
  destruct Hgt as [Hy Hx]; [lra |].
  split; [exact Hy |]. split; [exact Hx |].
  apply Hge. right. split; lra.
Defined.

(** ** Field of view *)

(** C7.  When the K matrix of the scene has positive focal lengths,
    [get_fov] returns 2 * arctan(resolution_x / (2 * fx)) and
    2 * arctan(resolution_y / (2 * fy)). *)
Theorem get_fov_of_K_matrix :
  forall (w : World) (K : Matrix3),
    snd (get_intrinsics_as_K_matrix w) = Ok K ->
    0 < k00 K -> 0 < k11 K ->
    get_fov w =
      (w, Ok (2 * atan (IZR (resolution_x (render w)) / (2 * k00 K)),
              2 * atan (IZR (resolution_y (render w)) / (2 * k11 K)))).
Proof.
  intros w K HK Hfx Hfy.
  unfold get_fov, bind.
  pose proof (get_intrinsics_as_K_matrix_reads w) as Hw.
  destruct (get_intrinsics_as_K_matrix w) as [w1 r]. cbn in Hw, HK. subst w1 r.
  unfold gets, ret.
  replace (IZR (resolution_x (render w)) / 2 / k00 K)
    with (IZR (resolution_x (render w)) / (2 * k00 K)) by (field; lra).
  replace (IZR (resolution_y (render w)) / 2 / k11 K)
    with (IZR (resolution_y (render w)) / (2 * k11 K)) by (field; lra).
  reflexivity.
Qed.

Lemma get_fov_of_K_matrix_witness :
  get_fov default_world =
    (default_world,
     Ok (2 * atan (1920 / (2 * (50 / 36 * 1920))),
         2 * atan (1080 / (2 * (50 / 36 * 1920 / (1 / 1)))))).
Proof.
  apply (get_fov_of_K_matrix default_world
           (K_of (50 / 36 * 1920) (50 / 36 * 1920 / (1 / 1))
                 ((1920 - 1) / 2 - 0 * 1920)
                 ((1080 - 1) / 2 + 0 * 1920 / (1 / 1)))).
  - py_run. reflexivity.
  - cbn. lra.
  - cbn. lra.
Defined.

(** ** Camera poses *)

(** C8.  [add_camera_pose] returns a frame f with f + 1 <= frame_end
    afterwards; without a frame argument f is the frame_end before the call;
    the world matrix of the camera is the given matrix, and the location and
    the rotation are keyed at frame f, from that matrix. *)
Theorem add_camera_pose_frame :
  forall (cam2world_matrix : Matrix) (frame : option Z) (w : World),
  exists (w' : World) (f : Z),
    add_camera_pose cam2world_matrix frame w = (w', Ok f) /\
    (f + 1 <= frame_end w')%Z /\
    f = match frame with None => frame_end w | Some f0 => f0 end /\
    matrix_world w' = cam2world_matrix /\
    keyframes w' =
      mkKeyframe "rotation_euler" f cam2world_matrix
        :: mkKeyframe "location" f cam2world_matrix :: keyframes w.
Proof.
  intros m frame w.
  unfold add_camera_pose, bind, modify, gets, ret.
  destruct frame as [f0 |]; cbn.
  - destruct (Z.ltb_spec (frame_end w) (f0 + 1)); cbn;
      eexists; eexists; (split; [reflexivity |]); cbn; repeat split; lia.
  - destruct (Z.ltb_spec (frame_end w) (frame_end w + 1)); cbn;
      eexists; eexists; (split; [reflexivity |]); cbn; repeat split; lia.
Qed.

(** ** Depth of field *)

(** C10.  [add_depth_of_field] raises its RuntimeError exactly when there is
    no focal point object and the focal distance is negative, and returns
    otherwise.  With a focal point object the focus object is set and the
    focus distance untouched.  After a returning call depth of field is on
    and the f-stop, blades, rotation and ratio of the aperture are the
    arguments. *)
Theorem add_depth_of_field_spec :
  forall (camera : Camera) (focal_point_obj : option string) (fstop_value : R)
         (aperture_blades_v : Z) (aperture_rotation_v aperture_ratio_v : R)
         (focal_distance : R),
    let out := add_depth_of_field camera focal_point_obj fstop_value
                 aperture_blades_v aperture_rotation_v aperture_ratio_v
                 focal_distance in
    let d := dof (fst out) in
    (snd out = Raise RuntimeError_focal_point <->
       focal_point_obj = None /\ focal_distance < 0) /\
    (snd out = Ok tt <-> ~ (focal_point_obj = None /\ focal_distance < 0)) /\
    (forall o, focal_point_obj = Some o ->
       focus_object d = Some o /\
       focus_distance d = focus_distance (dof camera)) /\
    (snd out = Ok tt ->
       use_dof d = true /\ aperture_fstop d = fstop_value /\
       aperture_blades d = aperture_blades_v /\
       aperture_rotation d = aperture_rotation_v /\
       aperture_ratio d = aperture_ratio_v).
Proof.
  intros camera fpo fstop blades rot ratio fd. cbv zeta.
  unfold add_depth_of_field.
  destruct fpo as [o |].
  - cbn. split; [| split; [| split]].
    + split; [discriminate | intros [H _]; discriminate].
    + split; [intros _ [H _]; discriminate | reflexivity].
    + intros o' H. injection H as <-. split; reflexivity.
    + intros _. repeat split.
  - destruct (Rleb_spec 0 fd) as [H | H]; cbn.
    + split; [| split; [| split]].
      * split; [discriminate | intros [_ H']; lra].
      * split; [intros _ [_ H']; lra | reflexivity].
      * discriminate.
      * intros _. repeat split.
    + split; [| split; [| split]].
      * split; [intros _; split; [reflexivity | lra] | reflexivity].
      * split; [discriminate |].
        intros H'. exfalso. apply H'. split; [reflexivity | lra].
      * discriminate.
      * discriminate.
Qed.

(** ** The loop of set_lens_distortion *)

Section LoopFacts.
Variable k : Coefficients.
Variable s : Setup.

Lemma distortion_loop_exit fuel st :
  res_last st <= 2 / 10 ->
  distortion_loop k s (S fuel) st = Some (Ok st).
Proof. intros H. cbn [distortion_loop]. rewrite Rltb_false by assumption. reflexivity. Qed.

Lemma distortion_loop_continue fuel st st' :
  2 / 10 < res_last st ->
  loop_body k s st = Ok st' ->
  distortion_loop k s (S fuel) st = distortion_loop k s fuel st'.
Proof.
  intros H Hb. cbn [distortion_loop]. rewrite Rltb_true by assumption.
  rewrite Hb. reflexivity.
Qed.

Lemma distortion_loop_raise fuel st e :
  2 / 10 < res_last st ->
  loop_body k s st = Raise e ->
  distortion_loop k s (S fuel) st = Some (Raise e).
Proof.
  intros H Hb. cbn [distortion_loop]. rewrite Rltb_true by assumption.
  rewrite Hb. reflexivity.
Qed.

(** More fuel does not change a result. *)
Lemma distortion_loop_mono fuel : forall st r fuel',
  distortion_loop k s fuel st = Some r ->
  (fuel <= fuel')%nat ->
  distortion_loop k s fuel' st = Some r.
Proof.
  induction fuel as [| fuel IH]; intros st r fuel' H Hle; [discriminate |].
  destruct fuel' as [| fuel']; [lia |].
  cbn [distortion_loop] in *.
  destruct (Rltb (2 / 10) (res_last st)); [| assumption].
  destruct (loop_body k s st) as [st' | e]; [| assumption].
  apply IH; [assumption | lia].
Qed.

(** A state the loop passes through is reached after some passes. *)
Lemma iterates_loop st :
  iterates k s st ->
  exists n, forall fuel,
    distortion_loop k s (n + fuel) (init_state s) = distortion_loop k s fuel st.
Proof.
  induction 1 as [| st st' Hit [n IH] Hres Hbody].
  - exists 0%nat. reflexivity.
  - exists (S n). intros fuel.
    replace (S n + fuel)%nat with (n + S fuel)%nat by lia.
    rewrite IH. apply distortion_loop_continue; assumption.
Qed.

(** The three ways through the body, once the residual is computed. *)
Lemma loop_body_cases st error :
  error_of k s (x st) (y st) = Ok error ->
  let stalled := (1 < S (it st))%nat /\ res_last st * (999 / 1000) < error in
  (stalled /\ (1000 < S (it st))%nat /\
   loop_body k s st = Raise Exception_stalled) \/
  (stalled /\ ~ (1000 < S (it st))%nat /\ 1000000000 < error /\
   loop_body k s st = Raise Exception_unstable) \/
  (~ (stalled /\ ((1000 < S (it st))%nat \/ 1000000000 < error)) /\
   exists st',
     loop_body k s st = Ok st' /\
     res st' = error :: res st /\
     it st' = S (it st) /\
     x st' = zip_with (fun a d => a - d * factor st') (x st)
               (delta_x k s (x st) (y st)) /\
     y st' = zip_with (fun a d => a - d * factor st') (y st)
               (delta_y k s (x st) (y st))).
Proof.
  intros Herr stalled. subst stalled. unfold loop_body. rewrite Herr.
  destruct (Nat.ltb_spec 1 (S (it st))) as [H1 | H1];
    destruct (Rltb_spec (res_last st * (999 / 1000)) error) as [H2 | H2];
    destruct (Nat.ltb_spec 1000 (S (it st))) as [H3 | H3];
    destruct (Rltb_spec 1000000000 error) as [H4 | H4];
    cbn [andb];
    first
      [ left; repeat split; (assumption || reflexivity)
      | right; left; repeat split; (assumption || lia || reflexivity)
      | right; right; split;
        [ intros [[Ha Hb] [Hc | Hc]]; (lia || lra)
        | eexists; repeat split ] ].
Qed.

Lemma loop_body_res_last st st' :
  loop_body k s st = Ok st' ->
  error_of k s (x st) (y st) = Ok (res_last st').
Proof.
  unfold loop_body.
  destruct (error_of k s (x st) (y st)) as [error | e]; [| discriminate].
  repeat match goal with
         | |- context [if ?b then _ else _] => destruct b
         end; try discriminate;
    intros H; injection H as <-; reflexivity.
Qed.

End LoopFacts.

Lemma fold_right_Rmax_upper v l :
  v <= fold_right Rmax v l /\ Forall (fun r => r <= fold_right Rmax v l) l.
Proof.
  induction l as [| b l [IHv IHl]]; cbn [fold_right].
  - split; [lra | constructor].
  - split.
    + eapply Rle_trans; [exact IHv | apply Rmax_r].
    + constructor; [apply Rmax_l |].
      eapply Forall_impl; [exact IHl |].
      intros r Hr. cbn in Hr. eapply Rle_trans; [exact Hr | apply Rmax_r].
Qed.

Lemma np_max_upper l m : Np.max l = Ok m -> Forall (fun r => r <= m) l.
Proof.
  destruct l as [| v l]; [discriminate |].
  cbn [Np.max]. intros H. injection H as <-.
  destruct (fold_right_Rmax_upper v l) as [Hv Hl].
  constructor; assumption.
Qed.

Lemma distortion_setup_reads w : fst (distortion_setup w) = w.
Proof.
  unfold distortion_setup, bind, gets, lift, ret.
  pose proof (get_intrinsics_as_K_matrix_reads w) as H.
  destruct (get_intrinsics_as_K_matrix w) as [w1 [K | e]]; cbn in H; subst w1;
    [| reflexivity].
  destruct (Np.inv K); reflexivity.
Qed.

(** A state the loop returns is one it passed through, at which the guard
    is false. *)
Lemma distortion_loop_result k s fuel : forall st0 st,
  iterates k s st0 ->
  distortion_loop k s fuel st0 = Some (Ok st) ->
  iterates k s st /\ res_last st <= 2 / 10.
Proof.
  induction fuel as [| fuel IH]; intros st0 st Hit H; [discriminate |].
  cbn [distortion_loop] in H.
  destruct (Rltb_spec (2 / 10) (res_last st0)) as [Hg | Hg].
  - destruct (loop_body k s st0) as [st1 | e] eqn:Hb; [| discriminate].
    apply (IH st1); [| assumption].
    eapply iterates_step; eassumption.
  - injection H as <-. split; [assumption | lra].
Qed.

(** ** The threshold of the loop *)

(** C4, amended.  When the loop returns, the last pass through its body
    found a maximal residual of at most 0.2: every pixel of the iterate that
    pass started from has a residual of at most 0.2.  The variables the loop
    returns are those after that pass, which has moved the iterate once
    more. *)
Theorem distortion_loop_exit_threshold :
  forall (k : Coefficients) (s : Setup) (fuel : nat) (st : LoopState),
    distortion_loop k s fuel (init_state s) = Some (Ok st) ->
    exists st_prev,
      iterates k s st_prev /\
      loop_body k s st_prev = Ok st /\
      error_of k s (x st_prev) (y st_prev) = Ok (res_last st) /\
      res_last st <= 2 / 10 /\
      Forall (fun r => r <= 2 / 10) (residuals k s (x st_prev) (y st_prev)).
Proof.
  intros k s fuel st H.
  apply distortion_loop_result in H as [Hit Hres]; [| constructor].
  inversion Hit as [Hinit | st_prev st' Hprev Hguard Hbody Heq].
  - rewrite <- Hinit in Hres. cbn in Hres. lra.
  - subst st'. exists st_prev.
    pose proof (loop_body_res_last _ _ _ _ Hbody) as Herr.
    repeat split; try assumption.
    eapply Forall_impl; [exact (np_max_upper _ _ Herr) |].
    intros r Hr. cbn in Hr. lra.
Qed.

(** ** When the loop raises *)

(** A raise of the loop is the raise of the body at a state it passed
    through. *)
Lemma distortion_loop_raise_inv k s fuel : forall st0 e,
  iterates k s st0 ->
  distortion_loop k s fuel st0 = Some (Raise e) ->
  exists st, iterates k s st /\ 2 / 10 < res_last st /\ loop_body k s st = Raise e.
Proof.
  induction fuel as [| fuel IH]; intros st0 e Hit H; [discriminate |].
  cbn [distortion_loop] in H.
  destruct (Rltb_spec (2 / 10) (res_last st0)) as [Hg | Hg]; [| discriminate].
  destruct (loop_body k s st0) as [st1 | e1] eqn:Hb.
  - apply (IH st1 e); [| assumption]. eapply iterates_step; eassumption.
  - injection H as <-. exists st0. repeat split; assumption.
Qed.

(** The code around the loop raises neither of the two exceptions of the
    loop. *)
Ltac other_exception :=
  cbv beta iota zeta;
  repeat (match goal with
          | |- context [if ?b then _ else _] => destruct b
          | |- context [match ?f with AUTO => _ | HORIZONTAL => _ | VERTICAL => _ end] =>
              destruct f
          end; cbv beta iota zeta);
  cbn [snd]; intros H; try discriminate H; injection H as <-;
  split; discriminate.

Lemma distortion_setup_other_exception w e :
  snd (distortion_setup w) = Raise e ->
  e <> Exception_stalled /\ e <> Exception_unstable.
Proof.
  unfold distortion_setup, get_intrinsics_as_K_matrix, get_view_fac_in_px,
    bind, gets, lift, ret, truediv, Np.inv.
  other_exception.
Qed.

Lemma set_intrinsics_from_K_matrix_other_exception K iw ih cs ce w e :
  snd (set_intrinsics_from_K_matrix K iw ih cs ce w) = Raise e ->
  e <> Exception_stalled /\ e <> Exception_unstable.
Proof.
  unfold set_intrinsics_from_K_matrix, set_intrinsics_from_blender_params,
    pixel_aspects_of, get_view_fac_in_px, bind, gets, lift, ret, modify, raise,
    truediv.
  cbn [String.eqb Ascii.eqb Bool.eqb].
  other_exception.
Qed.

Lemma distortion_finish_other_exception s st w e :
  snd (distortion_finish s st w) = Raise e ->
  e <> Exception_stalled /\ e <> Exception_unstable.
Proof.
  unfold distortion_finish, bind, lift, gets, modify.
  destruct (Np.min (u_of s st)) as [min_u | e0] eqn:E1;
    [| unfold Np.min in E1; destruct (u_of s st); [| discriminate];
       injection E1 as <-; cbn; intros H; injection H as <-; split; discriminate].
  destruct (Np.max (u_of s st)) as [max_u | e0] eqn:E2;
    [| unfold Np.max in E2; destruct (u_of s st); [| discriminate];
       injection E2 as <-; cbn; intros H; injection H as <-; split; discriminate].
  destruct (Np.min (v_of s st)) as [min_v | e0] eqn:E3;
    [| unfold Np.min in E3; destruct (v_of s st); [| discriminate];
       injection E3 as <-; cbn; intros H; injection H as <-; split; discriminate].
  destruct (Np.max (v_of s st)) as [max_v | e0] eqn:E4;
    [| unfold Np.max in E4; destruct (v_of s st); [| discriminate];
       injection E4 as <-; cbn; intros H; injection H as <-; split; discriminate].
  pose proof (get_intrinsics_as_K_matrix_reads w) as Hreads.
  destruct (get_intrinsics_as_K_matrix w) as [w1 [K | e0]] eqn:Hget;
    cbn in Hreads; subst w1.
  - cbn [fst snd].
    destruct (set_intrinsics_from_K_matrix _ _ _ _ _ w) as [w2 [[] | e0]] eqn:Hset;
      cbn [snd]; [discriminate |].
    intros H. injection H as <-.
    eapply set_intrinsics_from_K_matrix_other_exception. rewrite Hset. reflexivity.
  - cbn [snd]. intros H. injection H as <-.
    assert (Hs : snd (get_intrinsics_as_K_matrix w) = Raise e0)
      by (rewrite Hget; reflexivity).
    revert Hs.
    unfold get_intrinsics_as_K_matrix, get_view_fac_in_px,
      bind, gets, lift, ret, truediv.
    other_exception.
Qed.

(** C3, amended.  [set_lens_distortion] raises one of its two exceptions
    exactly for a stalled pass that is late or large: a pass of the loop
    after the first whose residual is above 0.999 times the previous one,
    and which is the 1001st pass or a later one, or has a residual above
    1e9.  Such a pass makes the call raise; a call that raises one of the
    two exceptions has made such a pass; and a pass that computes its
    residual and does not stall completes without raising, whatever its
    number and however large its residual. *)
Theorem set_lens_distortion_raises_when_stalled :
  forall (k : Coefficients) (w : World),
    (forall (s : Setup) (st : LoopState) (error : R),
       snd (distortion_setup w) = Ok s ->
       iterates k s st ->
       2 / 10 < res_last st ->
       error_of k s (x st) (y st) = Ok error ->
       (1 < S (it st))%nat ->
       res_last st * (999 / 1000) < error ->
       (1000 < S (it st))%nat \/ 1000000000 < error ->
       exists n, forall fuel, (n <= fuel)%nat ->
         set_lens_distortion fuel k w =
           (w, Some (Raise (if (1000 <? S (it st))%nat then Exception_stalled
                            else Exception_unstable)))) /\
    (forall (fuel : nat) (w' : World) (ex : exn),
       set_lens_distortion fuel k w = (w', Some (Raise ex)) ->
       ex = Exception_stalled \/ ex = Exception_unstable ->
       exists (s : Setup) (st : LoopState) (error : R),
         snd (distortion_setup w) = Ok s /\
         iterates k s st /\
         2 / 10 < res_last st /\
         error_of k s (x st) (y st) = Ok error /\
         (1 < S (it st))%nat /\
         res_last st * (999 / 1000) < error /\
         ((1000 < S (it st))%nat \/ 1000000000 < error) /\
         loop_body k s st = Raise ex) /\
    (forall (s : Setup) (st : LoopState) (error : R),
       error_of k s (x st) (y st) = Ok error ->
       ~ ((1 < S (it st))%nat /\ res_last st * (999 / 1000) < error) ->
       exists st', loop_body k s st = Ok st').
Proof.
  intros k w.
  pose proof (distortion_setup_reads w) as Hw.
  destruct (distortion_setup w) as [w1 r] eqn:Hsetup. cbn in Hw. subst w1.
  split; [| split].
  - intros s st error Hs Hit Hg Herr H1 H2 H3. cbn in Hs. subst r.
    destruct (iterates_loop _ _ _ Hit) as [n Hn].
    exists (n + 1)%nat. intros fuel Hfuel.
    assert (Hb : loop_body k s st =
                   Raise (if (1000 <? S (it st))%nat then Exception_stalled
                          else Exception_unstable)).
    { destruct (loop_body_cases k s st error Herr)
        as [(_ & Hlate & Hb) | [(_ & Hearly & _ & Hb) | (Hn' & _)]].
      - rewrite (proj2 (Nat.ltb_lt _ _) Hlate). exact Hb.
      - rewrite (proj2 (Nat.ltb_ge _ _)) by lia. exact Hb.
      - exfalso. apply Hn'. split; [split |]; assumption. }
    unfold set_lens_distortion. rewrite Hsetup.
    rewrite (distortion_loop_mono k s (n + 1) (init_state s)
               (Raise (if (1000 <? S (it st))%nat then Exception_stalled
                       else Exception_unstable)));
      [reflexivity | | assumption].
    rewrite Hn. apply distortion_loop_raise; assumption.
  - intros fuel w' ex Hrun Hex.
    unfold set_lens_distortion in Hrun. rewrite Hsetup in Hrun.
    destruct r as [s | e0];
      [| exfalso; injection Hrun as _ ->;
         destruct (distortion_setup_other_exception w ex) as [Hn1 Hn2];
         [rewrite Hsetup; reflexivity | destruct Hex; contradiction]].
    destruct (distortion_loop k s fuel (init_state s)) as [[st | e] |] eqn:Hloop;
      [| | discriminate].
    + exfalso. destruct (distortion_finish s st w) as [w2 r] eqn:Hfin.
      injection Hrun as _ ->.
      destruct (distortion_finish_other_exception s st w ex) as [Hn1 Hn2];
        [rewrite Hfin; reflexivity |].
      destruct Hex; contradiction.
    + injection Hrun as _ ->.
      apply distortion_loop_raise_inv in Hloop as (st & Hit & Hg & Hb);
        [| constructor].
      destruct (error_of k s (x st) (y st)) as [error | e0] eqn:Herr.
      * exists s, st, error. split; [reflexivity |].
        destruct (loop_body_cases k s st error Herr)
          as [([H1 H2] & H3 & Hb') | [([H1 H2] & H3 & H4 & Hb') | (_ & st' & Hb' & _)]];
          rewrite Hb' in Hb; try discriminate; injection Hb as <-;
          repeat split; try assumption; [left | right]; assumption.
      * exfalso. unfold loop_body in Hb. rewrite Herr in Hb. injection Hb as ->.
        unfold error_of, Np.max in Herr.
        destruct (residuals k s (x st) (y st)); [| discriminate].
        injection Herr as <-. destruct Hex; discriminate.
  - intros s st error Herr Hnot.
    destruct (loop_body_cases k s st error Herr)
      as [(Hst & _) | [(Hst & _) | (_ & st' & Hb & _)]];
      [contradiction | contradiction | eauto].
Qed.

(** ** Termination of the loop *)

Lemma length_arange n : length (Np.arange n) = Z.to_nat n.
Proof. unfold Np.arange. rewrite List.length_map, List.length_seq. reflexivity. Qed.

Lemma length_np_repeat a n : length (Np.repeat a n) = (length a * Z.to_nat n)%nat.
Proof.
  unfold Np.repeat. induction a as [| v a IH]; cbn [flat_map length]; [reflexivity |].
  rewrite List.length_app, IH, List.repeat_length. lia.
Qed.

Lemma length_np_tile a n : length (Np.tile a n) = (Z.to_nat n * length a)%nat.
Proof.
  unfold Np.tile. induction (Z.to_nat n) as [| m IH]; cbn [List.repeat concat]; [reflexivity |].
  rewrite List.length_app, IH. lia.
Qed.

(** The two rows of [P_und] have one entry per pixel. *)
Lemma distortion_setup_lengths w w1 s :
  distortion_setup w = (w1, Ok s) ->
  let n := (Z.to_nat (resolution_y (render w)) * Z.to_nat (resolution_x (render w)))%nat in
  length (fst (P_und s)) = n /\ length (snd (P_und s)) = n.
Proof.
  unfold distortion_setup, bind, gets, lift, ret.
  pose proof (get_intrinsics_as_K_matrix_reads w) as Hw.
  destruct (get_intrinsics_as_K_matrix w) as [w2 [K | e]]; cbn in Hw; subst w2;
    [| discriminate].
  destruct (Np.inv K) as [Kinv | e]; [| discriminate].
  intros H. injection H as _ <-. cbn [P_und project fst snd].
  rewrite !length_zip_with, length_np_repeat, length_np_tile, !length_arange.
  split; lia.
Qed.

Section Termination.
Variable k : Coefficients.
Variable s : Setup.
Hypothesis same_length : length (snd (P_und s)) = length (fst (P_und s)).
Hypothesis some_pixel : (0 < length (fst (P_und s)))%nat.









End Termination.



(** ** Runs on a scene of one pixel *)

Lemma Reqb_false a b : a <> b -> Reqb a b = false.
Proof. intros H. unfold Reqb. destruct (Req_dec_T a b); [contradiction | reflexivity]. Qed.

(** [Np.inv] computes the inverse. *)
Lemma np_inv_matmul m mi :
  Np.inv m = Ok mi -> Np.matmul m mi = Np.eye /\ Np.matmul mi m = Np.eye.
Proof.
  unfold Np.inv. destruct (Req_dec_T (Np.det3 m) 0) as [Hd | Hd].
  - unfold Reqb. destruct (Req_dec_T (Np.det3 m) 0); [discriminate | contradiction].
  - rewrite Reqb_false by assumption. intros H. injection H as <-.
    destruct m as [a b c d e f g h i]. unfold Np.det3 in *.
    cbn [k00 k01 k02 k10 k11 k12 k20 k21 k22] in *.
    unfold Np.matmul, Np.eye. cbn [k00 k01 k02 k10 k11 k12 k20 k21 k22].
    split; f_equal; field; exact Hd.
Qed.

Lemma np_inv_K_of fx fy cx cy :
  fx <> 0 -> fy <> 0 ->
  Np.inv (K_of fx fy cx cy) =
    Ok (mkMatrix3 (1 / fx) 0 (- cx / fx) 0 (1 / fy) (- cy / fy) 0 0 1).
Proof.
  intros Hx Hy. unfold Np.inv, Np.det3, K_of.
  cbn [k00 k01 k02 k10 k11 k12 k20 k21 k22].
  rewrite Reqb_false.
  - f_equal. f_equal; field; split; assumption.
  - intros H. apply (Rmult_integral_contrapositive_currified fx fy Hx Hy).
    rewrite <- H. ring.
Qed.

Lemma get_intrinsics_one_pixel f p :
  get_intrinsics_as_K_matrix (one_pixel_world f p) =
    (one_pixel_world f p, Ok (K_of f f (- (p * f)) 0)).
Proof.
  rewrite (get_intrinsics_as_K_matrix_eq _ (1 / 1) 1).
  - cbn. unfold K_of. do 2 f_equal. f_equal; field.
  - cbn. apply truediv_ok. lra.
  - unfold get_view_fac_in_px. cbn. rewrite truediv_ok by lra. reflexivity.
  - cbn. lra.
  - lra.
Qed.

Lemma distortion_setup_one_pixel f p :
  0 < f ->
  distortion_setup (one_pixel_world f p) =
    (one_pixel_world f p, Ok (one_pixel_setup f p)).
Proof.
  intros Hf. unfold distortion_setup, bind, gets, lift, ret.
  rewrite get_intrinsics_one_pixel.
  rewrite np_inv_K_of by lra.
  cbn. unfold one_pixel_setup, project, Np.tile, Np.repeat, Np.arange.
  change (Z.to_nat 1) with 1%nat. cbn.
  do 3 f_equal. f_equal; f_equal; field; lra.
Qed.

Lemma hypot_0_r a : Np.hypot a 0 = Rabs a.
Proof.
  unfold Np.hypot. replace (a * a + 0 * 0) with (Rsqr a) by (unfold Rsqr; ring).
  apply sqrt_Rsqr_abs.
Qed.

Lemma one_pixel_error f p p1_v a :
  0 <= f ->
  error_of (tangential p1_v) (one_pixel_setup f p) [a] [0] =
    Ok (f * Rabs (a + 3 * p1_v * (a * a) - p)).
Proof.
  intros Hf. unfold error_of, residuals, delta_x, delta_y, fx_of, fy_of.
  cbn. f_equal.
  replace (f * (distort_y (tangential p1_v) a 0 - 0)) with 0
    by (unfold distort_y, radial_part; cbn; ring).
  rewrite hypot_0_r, Rabs_mult, (Rabs_pos_eq f) by assumption.
  do 2 f_equal. unfold distort_x, radial_part. cbn. ring.
Qed.

(** A pass of the body on one pixel of the x axis. *)
Lemma one_pixel_body f p p1_v a rs n fac :
  0 <= f ->
  loop_body (tangential p1_v) (one_pixel_setup f p) (mkLoopState [a] [0] rs n fac) =
    let error := f * Rabs (a + 3 * p1_v * (a * a) - p) in
    let stalled := (1 <? S n)%nat && Rltb (hd 0 rs * (999 / 1000)) error in
    let factor' := if stalled then fac * (5 / 10) else fac in
    if stalled && (1000 <? S n)%nat then Raise Exception_stalled
    else if stalled && Rltb 1000000000 error then Raise Exception_unstable
    else Ok (mkLoopState [a - (a + 3 * p1_v * (a * a) - p) * factor'] [0]
               (error :: rs) (S n) factor').
Proof.
  intros Hf. unfold loop_body. cbn [x y res it factor].
  rewrite one_pixel_error by assumption. cbv zeta. unfold res_last. cbn [res].
  repeat match goal with
         | |- context [if ?b then _ else _] => destruct b
         end; try reflexivity;
    unfold delta_x, delta_y, distort_x, distort_y, radial_part; cbn;
    do 2 f_equal; f_equal; ring.
Qed.

Ltac py_eval :=
  repeat first
    [ rewrite Rabs_pos_eq by lra
    | rewrite Rabs_left1 by lra
    | rewrite Rltb_true by lra
    | rewrite Rltb_false by lra
    | rewrite Rleb_true by lra
    | rewrite Rleb_false by lra
    | rewrite truediv_ok by lra
    | progress cbn [andb fst snd Nat.ltb Nat.leb hd] ].

Ltac state_eq :=
  repeat match goal with
         | |- Ok _ = Ok _ => f_equal
         | |- Some _ = Some _ => f_equal
         | |- mkLoopState _ _ _ _ _ = mkLoopState _ _ _ _ _ => f_equal
         | |- cons _ _ = cons _ _ => f_equal
         end;
  try reflexivity; try lra.

Ltac one_pixel_pass :=
  rewrite one_pixel_body by lra; cbv zeta; py_eval; state_eq.

Lemma sign_ceil_abs_eq v z : v = IZR z -> Np.sign_ceil_abs v = z.
Proof.
  intros ->. unfold Np.sign_ceil_abs, Np.sign.
  rewrite <- abs_IZR, (Zceil_eq (Z.abs z)) by lra.
  destruct (Rltb_spec (IZR z) 0) as [H | H].
  - apply lt_IZR in H. lia.
  - destruct (Rltb_spec 0 (IZR z)) as [H' | H'].
    + apply lt_IZR in H'. lia.
    + assert (IZR z = 0) as Hz by lra. apply eq_IZR in Hz. lia.
Qed.

(** With fx = 1e9, the pixel at (1, 0) and p1 = 2/3, the first pass finds a
    residual of 2e9 pixels, the second pass one of 0, and the loop returns. *)
Lemma one_pixel_loop_converges :
  distortion_loop (tangential (2 / 3)) (one_pixel_setup 1000000000 1) 3
    (init_state (one_pixel_setup 1000000000 1)) =
  Some (Ok (mkLoopState [-1] [0] [0; 2000000000; 1000] 2 1)).
Proof.
  change (init_state (one_pixel_setup 1000000000 1))
    with (mkLoopState [1] [0] [1000] 0 1).
  rewrite (distortion_loop_continue _ _ _ _ (mkLoopState [-1] [0] [2000000000; 1000] 1 1)).
  - rewrite (distortion_loop_continue _ _ _ _
               (mkLoopState [-1] [0] [0; 2000000000; 1000] 2 1)).
    + apply distortion_loop_exit. cbn. lra.
    + cbn. lra.
    + one_pixel_pass.
  - cbn. lra.
  - one_pixel_pass.
Qed.

Lemma set_lens_distortion_one_pixel_returns :
  exists w',
    set_lens_distortion 3 (tangential (2 / 3)) (one_pixel_world 1000000000 1)
    = (w', Some (Ok tt)).
Proof.
  unfold set_lens_distortion.
  rewrite distortion_setup_one_pixel by lra.
  rewrite one_pixel_loop_converges.
  unfold distortion_finish, bind, lift, gets, modify, u_of, v_of, cx_of, cy_of, fx_of, fy_of.
  cbn [map x y camera_K_matrix one_pixel_setup K_of k00 k01 k02 k10 k11 k12 k20 k21 k22
       Np.min Np.max fold_right].
  rewrite (sign_ceil_abs_eq _ (-2000000000)) by lra.
  rewrite (sign_ceil_abs_eq _ 0) by lra.
  rewrite get_intrinsics_one_pixel.
  change (-2000000000 - (-2000000000 - 1) + 2)%Z with 3%Z.
  change (0 - (0 - 1) + 2)%Z with 3%Z.
  change (-2000000000 - 1)%Z with (-2000000001)%Z.
  change (0 - 1)%Z with (-1)%Z.
  py_run. eexists. reflexivity.
Qed.

(** C3, as stated, fails: on the scene of one pixel with fx = 1e9, the pixel
    at (1, 0) and p1 = 2/3, the first pass of the loop computes a residual
    of 2e9 pixels, above 1e9, and [set_lens_distortion] returns. *)
Lemma set_lens_distortion_returns_above_1e9 :
  snd (distortion_setup (one_pixel_world 1000000000 1))
    = Ok (one_pixel_setup 1000000000 1) /\
  iterates (tangential (2 / 3)) (one_pixel_setup 1000000000 1)
    (init_state (one_pixel_setup 1000000000 1)) /\
  2 / 10 < res_last (init_state (one_pixel_setup 1000000000 1)) /\
  error_of (tangential (2 / 3)) (one_pixel_setup 1000000000 1)
    (x (init_state (one_pixel_setup 1000000000 1)))
    (y (init_state (one_pixel_setup 1000000000 1))) = Ok 2000000000 /\
  1000000000 < 2000000000 /\
  exists w',
    set_lens_distortion 3 (tangential (2 / 3)) (one_pixel_world 1000000000 1)
    = (w', Some (Ok tt)).
Proof.
  split; [rewrite distortion_setup_one_pixel by lra; reflexivity |].
  split; [constructor |].
  split; [cbn; lra |].
  split; [| split; [lra | exact set_lens_distortion_one_pixel_returns]].
  cbn [init_state one_pixel_setup P_und x y fst snd].
  fold (one_pixel_setup 1000000000 1).
  rewrite one_pixel_error by lra. py_eval. f_equal. lra.
Qed.

(** With fx = 1, the pixel at (-1/2, 0) and p1 = 1/3 the residual is
    x^2 + x + 1/2 at the iterate x, which is at least 1/4: the loop never
    returns.  After three passes the iterate is -4137/4096 and the factor
    1/4. *)
Lemma one_pixel_stalling_start :
  iterates (tangential (1 / 3)) (one_pixel_setup 1 (-1 / 2))
    (mkLoopState [-4137 / 4096] [0] [425 / 1024; 5 / 16; 1 / 4; 1000] 3 (1 / 4)).
Proof.
  apply (iterates_step _ _ (mkLoopState [-29 / 32] [0] [5 / 16; 1 / 4; 1000] 2 (1 / 2)));
    [| cbn; lra | one_pixel_pass].
  apply (iterates_step _ _ (mkLoopState [-3 / 4] [0] [1 / 4; 1000] 1 1));
    [| cbn; lra | one_pixel_pass].
  apply (iterates_step _ _ (mkLoopState [-1 / 2] [0] [1000] 0 1));
    [apply iterates_init | cbn; lra | one_pixel_pass].
Qed.

(** From there on every pass stalls: the iterate goes down, stays above -2,
    and the residual goes up, staying below 5/2. *)
Lemma one_pixel_stalling_run n :
  (3 + n <= 1000)%nat ->
  exists a rs fac,
    iterates (tangential (1 / 3)) (one_pixel_setup 1 (-1 / 2))
      (mkLoopState [a] [0] rs (3 + n) fac) /\
    0 < fac /\ -2 + 5 / 2 * fac <= a <= -1 / 2 /\
    2 / 10 < hd 0 rs <= a * a + a + 1 / 2.
Proof.
  induction n as [| n IH]; intros Hn.
  - exists (-4137 / 4096), [425 / 1024; 5 / 16; 1 / 4; 1000], (1 / 4).
    split; [exact one_pixel_stalling_start |]. cbn [hd]. repeat split; lra.
  - destruct IH as (a & rs & fac & Hit & Hfac & [Hlo Hhi] & [Hg Hres]); [lia |].
    assert (Herr : 0 < a * a + a + 1 / 2) by nra.
    assert (Hup : a * a + a + 1 / 2 <= 5 / 2) by nra.
    set (a' := a - (a * a + a + 1 / 2) * (fac * (5 / 10))).
    exists a', (a * a + a + 1 / 2 :: rs), (fac * (5 / 10)).
    assert (Hstep : 0 <= (a * a + a + 1 / 2) * (fac * (5 / 10)) <= 5 / 2 * (fac * (5 / 10))).
    { split; [apply Rmult_le_pos; lra |].
      apply Rmult_le_compat_r; lra. }
    split; [| cbn [hd]; unfold a'; repeat split; try lra; nra].
    eapply iterates_step; [exact Hit | exact Hg |].
    rewrite one_pixel_body by lra. cbv zeta.
    replace (a + 3 * (1 / 3) * (a * a) - -1 / 2) with (a * a + a + 1 / 2) by lra.
    rewrite Rabs_pos_eq by lra. rewrite Rmult_1_l.
    change (1 <? S (3 + n))%nat with true.
    rewrite (proj2 (Nat.ltb_ge 1000 (S (3 + n)))) by lia.
    rewrite Rltb_true by lra. rewrite Rltb_false by lra.
    cbn [andb]. reflexivity.
Qed.

Lemma set_lens_distortion_raises_when_stalled_witness :
  (exists n, forall fuel, (n <= fuel)%nat ->
     set_lens_distortion fuel (tangential 1) (one_pixel_world 1000000000 1)
     = (one_pixel_world 1000000000 1, Some (Raise Exception_unstable))) /\
  (exists n, forall fuel, (n <= fuel)%nat ->
     set_lens_distortion fuel (tangential (1 / 3)) (one_pixel_world 1 (-1 / 2))
     = (one_pixel_world 1 (-1 / 2), Some (Raise Exception_stalled))).
Proof.
  split.
  - destruct (set_lens_distortion_raises_when_stalled (tangential 1)
                (one_pixel_world 1000000000 1)) as (Hraise & _ & _).
    apply (Hraise (one_pixel_setup 1000000000 1)
             (mkLoopState [-2] [0] [3000000000; 1000] 1 1) 9000000000).
    + rewrite distortion_setup_one_pixel by lra. reflexivity.
    + eapply iterates_step; [apply iterates_init | cbn; lra |].
      change (init_state (one_pixel_setup 1000000000 1))
        with (mkLoopState [1] [0] [1000] 0 1).
      one_pixel_pass.
    + cbn. lra.
    + cbn [x y]. rewrite one_pixel_error by lra. py_eval. f_equal. lra.
    + cbn. lia.
    + cbn. lra.
    + right. lra.
  - destruct (set_lens_distortion_raises_when_stalled (tangential (1 / 3))
                (one_pixel_world 1 (-1 / 2))) as (Hraise & _ & _).
    destruct (one_pixel_stalling_run 997) as (a & rs & fac & Hit & Hfac & Ha & Hres);
      [lia |].
    assert (Herr : 0 < a * a + a + 1 / 2) by nra.
    apply (Hraise (one_pixel_setup 1 (-1 / 2))
             (mkLoopState [a] [0] rs (3 + 997) fac) (a * a + a + 1 / 2)).
    + rewrite distortion_setup_one_pixel by lra. reflexivity.
    + exact Hit.
    + exact (proj1 Hres).
    + cbn [x y]. rewrite one_pixel_error by lra.
      replace (a + 3 * (1 / 3) * (a * a) - -1 / 2) with (a * a + a + 1 / 2) by lra.
      rewrite Rabs_pos_eq by lra. f_equal. lra.
    + cbn [it]. lia.
    + unfold res_last. cbn [res]. lra.
    + left. cbn [it]. lia.
Defined.

Lemma sign_ceil_abs_negative v z :
  v < 0 -> IZR z - 1 < - v <= IZR z -> Np.sign_ceil_abs v = (- z)%Z.
Proof.
  intros Hv Hz. unfold Np.sign_ceil_abs, Np.sign.
  rewrite Rltb_true, Rabs_left, (Zceil_eq z) by assumption. lia.
Qed.

(** With fx = 1, the pixel at (1/15, 0) and p1 = 15, the first pass finds
    the residual 0.2 and the loop returns after it. *)
Lemma one_pixel_loop_overshoots :
  distortion_loop (tangential 15) (one_pixel_setup 1 (1 / 15)) 2
    (init_state (one_pixel_setup 1 (1 / 15)))
  = Some (Ok (mkLoopState [-2 / 15] [0] [2 / 10; 1000] 1 1)).
Proof.
  change (init_state (one_pixel_setup 1 (1 / 15)))
    with (mkLoopState [1 / 15] [0] [1000] 0 1).
  rewrite (distortion_loop_continue _ _ _ _
             (mkLoopState [-2 / 15] [0] [2 / 10; 1000] 1 1)).
  - apply distortion_loop_exit. cbn. lra.
  - cbn. lra.
  - one_pixel_pass.
Qed.

Lemma set_lens_distortion_overshoot_returns :
  exists w',
    set_lens_distortion 2 (tangential 15) (one_pixel_world 1 (1 / 15))
    = (w', Some (Ok tt)).
Proof.
  unfold set_lens_distortion.
  rewrite distortion_setup_one_pixel by lra.
  rewrite one_pixel_loop_overshoots.
  unfold distortion_finish, bind, lift, gets, modify, u_of, v_of, cx_of, cy_of, fx_of, fy_of.
  cbn [map x y camera_K_matrix one_pixel_setup K_of k00 k01 k02 k10 k11 k12 k20 k21 k22
       Np.min Np.max fold_right].
  rewrite (sign_ceil_abs_negative _ 1) by lra.
  rewrite (sign_ceil_abs_eq _ 0) by lra.
  rewrite get_intrinsics_one_pixel.
  change (- (1) - (- (1) - 1) + 2)%Z with 3%Z.
  change (0 - (0 - 1) + 2)%Z with 3%Z.
  change (- (1) - 1)%Z with (-2)%Z.
  change (0 - 1)%Z with (-1)%Z.
  py_run. eexists. reflexivity.
Qed.

(** C4, as stated, fails: on the scene of one pixel with fx = 1, the pixel
    at (1/15, 0) and p1 = 15, the first pass finds the residual 0.2, the
    loop returns and so does [set_lens_distortion]; the residual of the
    iterate the loop returns, from which the mapping is made, is 0.6. *)
Lemma returned_iterate_above_threshold :
  snd (distortion_setup (one_pixel_world 1 (1 / 15)))
    = Ok (one_pixel_setup 1 (1 / 15)) /\
  distortion_loop (tangential 15) (one_pixel_setup 1 (1 / 15)) 2
    (init_state (one_pixel_setup 1 (1 / 15)))
    = Some (Ok (mkLoopState [-2 / 15] [0] [2 / 10; 1000] 1 1)) /\
  error_of (tangential 15) (one_pixel_setup 1 (1 / 15)) [-2 / 15] [0] = Ok (6 / 10) /\
  2 / 10 < 6 / 10 /\
  exists w',
    set_lens_distortion 2 (tangential 15) (one_pixel_world 1 (1 / 15))
    = (w', Some (Ok tt)).
Proof.
  split; [rewrite distortion_setup_one_pixel by lra; reflexivity |].
  split; [exact one_pixel_loop_overshoots |].
  split; [| split; [lra | exact set_lens_distortion_overshoot_returns]].
  rewrite one_pixel_error by lra. py_eval. f_equal. lra.
Qed.

Lemma distortion_loop_exit_threshold_witness :
  exists st_prev,
    iterates (tangential (2 / 3)) (one_pixel_setup 1000000000 1) st_prev /\
    loop_body (tangential (2 / 3)) (one_pixel_setup 1000000000 1) st_prev
      = Ok (mkLoopState [-1] [0] [0; 2000000000; 1000] 2 1) /\
    error_of (tangential (2 / 3)) (one_pixel_setup 1000000000 1)
      (x st_prev) (y st_prev) = Ok 0 /\
    0 <= 2 / 10 /\
    Forall (fun r => r <= 2 / 10)
      (residuals (tangential (2 / 3)) (one_pixel_setup 1000000000 1)
         (x st_prev) (y st_prev)).
Proof.
  exact (distortion_loop_exit_threshold (tangential (2 / 3))
           (one_pixel_setup 1000000000 1) 3
           (mkLoopState [-1] [0] [0; 2000000000; 1000] 2 1)
           one_pixel_loop_converges).
Defined.

(** ** The global storage *)

Lemma distortion_setup_original_resolution w w1 s :
  distortion_setup w = (w1, Ok s) ->
  original_image_resolution s = (resolution_y (render w), resolution_x (render w)).
Proof.
  unfold distortion_setup, bind, gets, lift, ret.
  destruct (get_intrinsics_as_K_matrix w) as [w2 [K | e]]; [| discriminate].
  destruct (Np.inv K) as [Kinv | e]; [| discriminate].
  intros H. injection H as _ <-. reflexivity.
Qed.

(** C6.  After a returning call of [set_lens_distortion] the global storage
    holds, under ["_lens_distortion_is_used"], the mapping coordinates
    computed from the variables the loop returned (row 0 is v, row 1 is u,
    both shifted to the new principal point) and the resolution
    (resolution_y, resolution_x) the scene had when the call began. *)
Theorem set_lens_distortion_stores_mapping :
  forall (fuel : nat) (k : Coefficients) (w w' : World),
    set_lens_distortion fuel k w = (w', Some (Ok tt)) ->
    exists s st min_u min_v,
      snd (distortion_setup w) = Ok s /\
      distortion_loop k s fuel (init_state s) = Some (Ok st) /\
      Np.min (u_of s st) = Ok min_u /\
      Np.min (v_of s st) = Ok min_v /\
      global_storage w' !! "_lens_distortion_is_used"%string =
        Some (mkDistortionData
                (map (fun a => a + (cy_of s - IZR (Np.sign_ceil_abs min_v - 1) + 1
                                    - cy_of s)) (v_of s st),
                 map (fun a => a + (cx_of s - IZR (Np.sign_ceil_abs min_u - 1) + 1
                                    - cx_of s)) (u_of s st))
                (resolution_y (render w), resolution_x (render w))).
Proof.
  intros fuel k w w'. unfold set_lens_distortion.
  destruct (distortion_setup w) as [w1 [s | e]] eqn:Hsetup; [| discriminate].
  pose proof (distortion_setup_original_resolution _ _ _ Hsetup) as Hres.
  destruct (distortion_loop k s fuel (init_state s)) as [[st | e] |] eqn:Hloop;
    try discriminate.
  unfold distortion_finish, bind, lift, gets, modify.
  destruct (Np.min (u_of s st)) as [min_u | e] eqn:Hminu; [| discriminate].
  destruct (Np.max (u_of s st)) as [max_u | e]; [| discriminate].
  destruct (Np.min (v_of s st)) as [min_v | e] eqn:Hminv; [| discriminate].
  destruct (Np.max (v_of s st)) as [max_v | e]; [| discriminate].
  destruct (get_intrinsics_as_K_matrix w1) as [w2 [K | e]]; [| discriminate].
  cbn [fst snd].
  destruct (set_intrinsics_from_K_matrix _ _ _ _ _ w2) as [w3 [[] | e]];
    [| discriminate].
  intros H. injection H as <-.
  exists s, st, min_u, min_v. repeat split; try assumption.
  cbn [global_storage GlobalStorage_set]. rewrite lookup_insert_eq, Hres. reflexivity.
Qed.

Lemma set_lens_distortion_stores_mapping_witness :
  exists w' d,
    set_lens_distortion 3 (tangential (2 / 3)) (one_pixel_world 1000000000 1)
      = (w', Some (Ok tt)) /\
    global_storage w' !! "_lens_distortion_is_used"%string = Some d /\
    original_image_res d = (1%Z, 1%Z).
Proof.
  destruct set_lens_distortion_one_pixel_returns as [w' H].
  destruct (set_lens_distortion_stores_mapping 3 (tangential (2 / 3))
              (one_pixel_world 1000000000 1) w' H)
    as (s & st & min_u & min_v & _ & _ & _ & _ & Hd).
  exists w'. eexists. split; [exact H |]. split; [exact Hd | reflexivity].
Defined.

(** * Further properties of the code *)

(** ** Camera poses *)

Lemma add_camera_pose_None m w :
  add_camera_pose m None w =
    (keyframe_insert "rotation_euler" (frame_end w)
       (keyframe_insert "location" (frame_end w)
          (set_frame_end (frame_end w + 1) (set_matrix_world m w))),
     Ok (frame_end w)).
Proof.
  unfold add_camera_pose, bind, modify, gets, ret. cbn.
  destruct (Z.ltb_spec (frame_end w) (frame_end w + 1)); [reflexivity | lia].
Qed.

(** X1.  [add_camera_pose] never lowers frame_end: afterwards it is the
    larger of the old frame_end and the keyed frame plus one.  The camera
    data, the render settings and the global storage are not touched. *)
Theorem add_camera_pose_frame_end :
  forall (cam2world_matrix : Matrix) (frame : option Z) (w : World),
    let w' := fst (add_camera_pose cam2world_matrix frame w) in
    let f := match frame with None => frame_end w | Some f0 => f0 end in
    frame_end w' = Z.max (frame_end w) (f + 1) /\
    (frame_end w <= frame_end w')%Z /\
    cam w' = cam w /\ render w' = render w /\
    global_storage w' = global_storage w.
Proof.
  intros m frame w. cbv zeta.
  unfold add_camera_pose, bind, modify, gets, ret.
  destruct frame as [f0 |]; cbn.
  - destruct (Z.ltb_spec (frame_end w) (f0 + 1)); cbn; repeat split; lia.
  - destruct (Z.ltb_spec (frame_end w) (frame_end w + 1)); cbn; repeat split; lia.
Qed.

Lemma last_nonempty_default {A} (a : A) l d d' :
  List.last (a :: l) d = List.last (a :: l) d'.
Proof.
  revert a. induction l as [| b l IH]; intros a; [reflexivity |].
  change (List.last (b :: l) d = List.last (b :: l) d'). apply IH.
Qed.

(** X2.  The pose loop of the example scripts: n calls without a frame
    argument key the frames F, F + 1, ..., F + n - 1, where F is the
    frame_end before the loop, leave frame_end at F + n and add two
    keyframes per pose. *)
Theorem add_camera_poses_frames :
  forall (matrices : list Matrix) (w : World),
  exists w',
    add_camera_poses matrices w =
      (w', Ok (map (fun i => (frame_end w + Z.of_nat i)%Z) (seq 0 (length matrices)))) /\
    frame_end w' = (frame_end w + Z.of_nat (length matrices))%Z /\
    length (keyframes w') = (length (keyframes w) + 2 * length matrices)%nat /\
    matrix_world w' = List.last matrices (matrix_world w).
Proof.
  induction matrices as [| m ms IH]; intros w.
  - exists w. cbn. repeat split; lia.
  - cbn [add_camera_poses]. unfold bind at 1. rewrite add_camera_pose_None.
    set (w1 := keyframe_insert _ _ _).
    destruct (IH w1) as (w' & Hrun & Hfe & Hkf & Hmw).
    exists w'. unfold bind at 1. rewrite Hrun. unfold ret.
    assert (Hfe1 : frame_end w1 = (frame_end w + 1)%Z) by reflexivity.
    repeat split.
    + do 2 f_equal. cbn [length seq map]. f_equal; [f_equal; lia |].
      rewrite <- seq_shift, map_map. apply map_ext. intros i. lia.
    + rewrite Hfe, Hfe1. cbn [length]. lia.
    + rewrite Hkf. cbn. lia.
    + rewrite Hmw. destruct ms as [| m0 ms]; [reflexivity |].
      change (List.last (m :: m0 :: ms) (matrix_world w))
        with (List.last (m0 :: ms) (matrix_world w)).
      apply last_nonempty_default.
Qed.

(** ** What a raising call leaves behind *)

(** X3.  A raising call of [set_intrinsics_from_blender_params] has stored
    no resolution, clipping, pixel aspect, shift or lens.  For an unknown
    lens unit the scene is as before the call; for a focal length below 1mm
    the lens unit, and nothing else, has been overwritten. *)
Theorem set_intrinsics_from_blender_params_on_raise :
  forall (lens_v : R) (image_width image_height : Z) (clip_start_v clip_end_v : R)
         (pixel_aspect_x_v pixel_aspect_y_v shift_x_v shift_y_v : R)
         (lens_unit_v : string) (w w' : World) (e : exn),
    set_intrinsics_from_blender_params lens_v image_width image_height
      clip_start_v clip_end_v pixel_aspect_x_v pixel_aspect_y_v
      shift_x_v shift_y_v lens_unit_v w = (w', Raise e) ->
    (e = Exception_lens_unit lens_unit_v /\ w' = w) \/
    (e = Exception_focal_length lens_v /\ lens_v < 1 /\
     w' = with_cam (set_lens_unit "MILLIMETERS") w).
Proof.
  intros lens_v iw ih cs ce pax pay sx sy unit_v w w' e.
  unfold set_intrinsics_from_blender_params.
  destruct (String.eqb_spec unit_v "MILLIMETERS") as [-> | Hm].
  - destruct (Rltb_spec lens_v 1) as [Hl | Hl]; cbn; [| discriminate].
    intros H. injection H as <- <-. right. repeat split. assumption.
  - destruct (String.eqb_spec unit_v "FOV") as [-> | Hf]; cbn; [discriminate |].
    intros H. injection H as <- <-. left. split; reflexivity.
Qed.

Lemma set_intrinsics_from_blender_params_on_raise_witness :
  (Exception_lens_unit "INCHES" = Exception_lens_unit "INCHES" /\
   default_world = default_world) \/
  (Exception_lens_unit "INCHES" = Exception_focal_length 50 /\ 50 < 1 /\
   default_world = with_cam (set_lens_unit "MILLIMETERS") default_world).
Proof.
  apply (set_intrinsics_from_blender_params_on_raise 50 640 480 (1 / 10) 100
           1 1 0 0 "INCHES" default_world default_world
           (Exception_lens_unit "INCHES")).
  reflexivity.
Defined.

(** X4.  A raising call of [add_depth_of_field] (no focal point object and
    a negative focal distance) has already switched depth of field on, and
    has changed nothing else of the camera. *)
Theorem add_depth_of_field_on_raise :
  forall (camera : Camera) (fstop_value : R) (aperture_blades_v : Z)
         (aperture_rotation_v aperture_ratio_v focal_distance : R),
    focal_distance < 0 ->
    add_depth_of_field camera None fstop_value aperture_blades_v
      aperture_rotation_v aperture_ratio_v focal_distance =
    (mkCamera (lens_unit camera) (lens camera) (angle camera) (clip_start camera)
       (clip_end camera) (shift_x camera) (shift_y camera) (sensor_fit camera)
       (sensor_width camera) (sensor_height camera)
       (mkDof true (focus_object (dof camera)) (focus_distance (dof camera))
          (aperture_fstop (dof camera)) (aperture_blades (dof camera))
          (aperture_rotation (dof camera)) (aperture_ratio (dof camera))),
     Raise RuntimeError_focal_point).
Proof.
  intros camera fstop blades rot ratio fd Hfd.
  unfold add_depth_of_field. rewrite Rleb_false by assumption. reflexivity.
Qed.

Lemma add_depth_of_field_on_raise_witness :
  snd (add_depth_of_field (cam default_world) None (28 / 10) 0 0 1 (-1))
    = Raise RuntimeError_focal_point /\
  use_dof (dof (fst (add_depth_of_field (cam default_world) None (28 / 10) 0 0 1 (-1))))
    = true.
Proof.
  rewrite (add_depth_of_field_on_raise (cam default_world) (28 / 10) 0 0 1 (-1))
    by lra.
  split; reflexivity.
Defined.

(** ** Reading the K matrix *)

(** What a returning [get_intrinsics_as_K_matrix] read and computed. *)
Lemma get_intrinsics_as_K_matrix_inv w K :
  snd (get_intrinsics_as_K_matrix w) = Ok K ->
  exists vf,
    pixel_aspect_x (render w) <> 0 /\
    pixel_aspect_y (render w) <> 0 /\
    get_sensor_size (cam w) <> 0 /\
    get_view_fac_in_px (cam w) (pixel_aspect_x (render w)) (pixel_aspect_y (render w))
      (resolution_x (render w)) (resolution_y (render w)) = Ok vf /\
    K = K_of (lens (cam w) / get_sensor_size (cam w) * vf)
             (lens (cam w) / get_sensor_size (cam w) * vf
              / (pixel_aspect_y (render w) / pixel_aspect_x (render w)))
             ((IZR (resolution_x (render w)) - 1) / 2 - shift_x (cam w) * vf)
             ((IZR (resolution_y (render w)) - 1) / 2
              + shift_y (cam w) * vf
                / (pixel_aspect_y (render w) / pixel_aspect_x (render w))).
Proof.
  unfold get_intrinsics_as_K_matrix, bind, gets, lift, ret.
  destruct (truediv (pixel_aspect_y (render w)) (pixel_aspect_x (render w)))
    as [par | e] eqn:Epar; [| discriminate].
  apply truediv_inv in Epar as [Hpax ->].
  destruct (get_view_fac_in_px _ _ _ _ _) as [vf | e] eqn:Evf; [| discriminate].
  destruct (truediv (lens (cam w)) (get_sensor_size (cam w)))
    as [f1 | e] eqn:Ef1; [| discriminate].
  apply truediv_inv in Ef1 as [Hs ->].
  destruct (truediv (lens (cam w) / get_sensor_size (cam w) * vf) _)
    as [fy | e] eqn:Efy; [| discriminate].
  apply truediv_inv in Efy as [Hpar ->].
  rewrite truediv_ok by assumption. cbn [snd].
  intros H. injection H as <-.
  exists vf. repeat split; try assumption.
  intros Hpay. apply Hpar. rewrite Hpay. unfold Rdiv. apply Rmult_0_l.
Qed.

(** Either a divisor is zero and the call raises, or none is and it
    returns. *)
Lemma get_intrinsics_as_K_matrix_cases w :
  (pixel_aspect_x (render w) = 0 \/ pixel_aspect_y (render w) = 0
   \/ get_sensor_size (cam w) = 0) /\
  snd (get_intrinsics_as_K_matrix w) = Raise ZeroDivisionError
  \/ ~ (pixel_aspect_x (render w) = 0 \/ pixel_aspect_y (render w) = 0
        \/ get_sensor_size (cam w) = 0) /\
    exists K, snd (get_intrinsics_as_K_matrix w) = Ok K.
Proof.
  unfold get_intrinsics_as_K_matrix, bind, gets, lift, ret.
  destruct (Req_dec_T (pixel_aspect_x (render w)) 0) as [Hx | Hx].
  { left. split; [left; assumption |]. rewrite Hx, truediv_zero. reflexivity. }
  rewrite truediv_ok by assumption.
  assert (Hvf : exists vf, get_view_fac_in_px (cam w) (pixel_aspect_x (render w))
                  (pixel_aspect_y (render w)) (resolution_x (render w))
                  (resolution_y (render w)) = Ok vf).
  { unfold get_view_fac_in_px. rewrite truediv_ok by assumption.
    destruct (sensor_fit (cam w)); [destruct (Rleb _ _) | |]; eauto. }
  destruct Hvf as [vf ->].
  destruct (Req_dec_T (get_sensor_size (cam w)) 0) as [Hs | Hs].
  { left. split; [right; right; assumption |]. rewrite Hs, truediv_zero. reflexivity. }
  rewrite truediv_ok by assumption.
  destruct (Req_dec_T (pixel_aspect_y (render w)) 0) as [Hy | Hy].
  { left. split; [right; left; assumption |].
    replace (pixel_aspect_y (render w) / pixel_aspect_x (render w)) with 0
      by (rewrite Hy; unfold Rdiv; rewrite Rmult_0_l; reflexivity).
    rewrite truediv_zero. reflexivity. }
  right. split; [intros [H | [H | H]]; contradiction |].
  assert (pixel_aspect_y (render w) / pixel_aspect_x (render w) <> 0).
  { unfold Rdiv. apply Rmult_integral_contrapositive_currified;
      [assumption | apply Rinv_neq_0_compat; assumption]. }
  rewrite !truediv_ok by assumption. eexists. reflexivity.
Qed.

(** X5.  [get_intrinsics_as_K_matrix] raises, and then a ZeroDivisionError,
    exactly when a pixel aspect ratio or the sensor size in use is zero;
    otherwise it returns a matrix.  It never changes the scene. *)
Theorem get_intrinsics_as_K_matrix_raises_iff :
  forall (w : World),
    let zero := pixel_aspect_x (render w) = 0 \/ pixel_aspect_y (render w) = 0
                \/ get_sensor_size (cam w) = 0 in
    (snd (get_intrinsics_as_K_matrix w) = Raise ZeroDivisionError <-> zero) /\
    ((exists K, snd (get_intrinsics_as_K_matrix w) = Ok K) <-> ~ zero) /\
    fst (get_intrinsics_as_K_matrix w) = w.
Proof.
  intros w. cbv zeta.
  pose proof (get_intrinsics_as_K_matrix_cases w) as Hcases.
  split; [| split; [| apply get_intrinsics_as_K_matrix_reads]].
  - destruct Hcases as [[Hz Hr] | [Hz [K Hr]]]; split; intros H; try assumption.
    + rewrite Hr in H. discriminate.
    + contradiction.
  - destruct Hcases as [[Hz Hr] | [Hz [K Hr]]]; split; intros H; try assumption.
    + destruct H as [K HK]. rewrite Hr in HK. discriminate.
    + contradiction.
    + eauto.
Qed.

(** X6.  With the sensor fit AUTO and a positive pixel aspect along x, the
    view factor is the larger of the image width and the image height scaled
    by the pixel aspect ratio. *)
Theorem get_view_fac_in_px_auto :
  forall (c : Camera) (pixel_aspect_x_v pixel_aspect_y_v : R)
         (resolution_x_in_px resolution_y_in_px : Z),
    sensor_fit c = AUTO ->
    0 < pixel_aspect_x_v ->
    get_view_fac_in_px c pixel_aspect_x_v pixel_aspect_y_v
      resolution_x_in_px resolution_y_in_px =
    Ok (Rmax (IZR resolution_x_in_px)
             (pixel_aspect_y_v / pixel_aspect_x_v * IZR resolution_y_in_px)).
Proof.
  intros c pax pay rx ry Hfit Hpax. unfold get_view_fac_in_px.
  rewrite Hfit, truediv_ok by lra.
  assert (Heq : pay / pax * IZR ry * pax = pay * IZR ry) by (field; lra).
  destruct (Rleb_spec (pay * IZR ry) (pax * IZR rx)) as [H | H]; f_equal.
  - rewrite Rmax_left; [reflexivity |].
    apply Rmult_le_reg_r with pax; [assumption |]. rewrite Heq. lra.
  - rewrite Rmax_right; [reflexivity |].
    apply Rmult_le_reg_r with pax; [assumption |]. rewrite Heq. lra.
Qed.

Lemma get_view_fac_in_px_auto_witness :
  get_view_fac_in_px (cam default_world) 1 1 1920 1080 = Ok (Rmax 1920 (1 / 1 * 1080)).
Proof.
  apply (get_view_fac_in_px_auto (cam default_world) 1 1 1920 1080);
    [reflexivity | lra].
Defined.

(** ** Writing back the K matrix that was read *)

Lemma pixel_aspects_of_normalized lens_px pax pay :
  0 < lens_px ->
  (pax = 1 /\ 1 <= pay) \/ (pay = 1 /\ 1 <= pax) ->
  pixel_aspects_of lens_px (lens_px / (pay / pax)) = Ok (pax, pay).
Proof.
  intros Hf Hn. unfold pixel_aspects_of.
  assert (Hfy : lens_px / (pay / pax) * pay = lens_px * pax)
    by (field; destruct Hn as [[-> H] | [-> H]]; lra).
  destruct Hn as [[-> Hy] | [-> Hx]].
  - destruct (Rltb_spec (lens_px / (pay / 1)) lens_px) as [H1 | H1].
    + rewrite truediv_ok by nra. do 2 f_equal. field. lra.
    + assert (pay = 1) by nra. subst pay.
      rewrite Rltb_false; [reflexivity |].
      right. field.
  - destruct (Rltb_spec (lens_px / (1 / pax)) lens_px) as [H1 | H1]; [nra |].
    destruct (Rltb_spec lens_px (lens_px / (1 / pax))) as [H2 | H2].
    + rewrite truediv_ok by lra. do 2 f_equal. field. lra.
    + assert (pax = 1) by nra. subst pax. reflexivity.
Qed.

(** X7.  [get_intrinsics_as_K_matrix] followed by
    [set_intrinsics_from_K_matrix] with the resolution and clipping of the
    scene gives the scene back, with the lens unit set to millimeters: for a
    positive resolution, a positive sensor size, a lens of at least 1mm and
    pixel aspect ratios that are at least 1 with one of them equal to 1. *)
Theorem get_then_set_restores_scene :
  forall (w : World) (K : Matrix3),
    snd (get_intrinsics_as_K_matrix w) = Ok K ->
    (0 < resolution_x (render w))%Z ->
    (0 < resolution_y (render w))%Z ->
    1 <= lens (cam w) ->
    0 < get_sensor_size (cam w) ->
    (pixel_aspect_x (render w) = 1 /\ 1 <= pixel_aspect_y (render w)) \/
    (pixel_aspect_y (render w) = 1 /\ 1 <= pixel_aspect_x (render w)) ->
    set_intrinsics_from_K_matrix K (resolution_x (render w)) (resolution_y (render w))
      (clip_start (cam w)) (clip_end (cam w)) w
    = (with_cam (set_lens_unit "MILLIMETERS") w, Ok tt).
Proof.
  intros w K HK Hrx Hry Hlens Hsensor Hnorm.
  apply get_intrinsics_as_K_matrix_inv in HK.
  destruct HK as (vf & Hpax & Hpay & _ & Evf & ->).
  destruct w as [fe mw kf [lu l an cs ce sx sy fit sw sh d] [rx ry pax pay] gs].
  cbn [cam render lens clip_start clip_end shift_x shift_y resolution_x resolution_y
       pixel_aspect_x pixel_aspect_y] in *.
  set (c := mkCamera lu l an cs ce sx sy fit sw sh d) in *.
  assert (Hxy : 0 < pax /\ 0 < pay) by (destruct Hnorm as [[-> H] | [-> H]]; lra).
  destruct Hxy as [Hx Hy].
  assert (Hvf : 0 < vf)
    by (eapply get_view_fac_in_px_pos; [| | exact Hrx | exact Hry | exact Evf]; lra).
  assert (Hfx : 0 < l / get_sensor_size c * vf).
  { apply Rmult_lt_0_compat; [| assumption].
    apply Rdiv_lt_0_compat; lra. }
  assert (Hpar : 0 < pay / pax) by (apply Rdiv_lt_0_compat; assumption).
  unfold set_intrinsics_from_K_matrix, bind, gets, lift.
  cbn [k00 k11 k02 k12 K_of cam].
  rewrite (pixel_aspects_of_normalized _ pax pay Hfx Hnorm). cbn [fst snd].
  rewrite truediv_ok by lra. rewrite Evf.
  rewrite !truediv_ok by lra.
  unfold set_intrinsics_from_blender_params, bind, modify, raise.
  cbn [String.eqb Ascii.eqb Bool.eqb].
  replace (l / get_sensor_size c * vf * get_sensor_size c / vf) with l
    by (field; lra).
  rewrite Rltb_false by assumption.
  unfold with_cam, with_render, set_lens_unit, set_lens, set_clip, set_shift,
    set_resolution, set_pixel_aspect, c.
  cbn. do 2 f_equal. f_equal; field; lra.
Qed.

Lemma get_then_set_restores_scene_witness :
  set_intrinsics_from_K_matrix
    (K_of (50 / 36 * 1920) (50 / 36 * 1920 / (1 / 1))
          ((1920 - 1) / 2 - 0 * 1920) ((1080 - 1) / 2 + 0 * 1920 / (1 / 1)))
    1920 1080 (1 / 10) 100 default_world
  = (with_cam (set_lens_unit "MILLIMETERS") default_world, Ok tt).
Proof.
  apply (get_then_set_restores_scene default_world).
  - py_run. reflexivity.
  - cbn. lia.
  - cbn. lia.
  - cbn. lra.
  - cbn. lra.
  - left. cbn. split; lra.
Defined.

(** ** Field of view of a camera *)

Lemma get_fov_unfold w K :
  snd (get_intrinsics_as_K_matrix w) = Ok K ->
  get_fov w =
    (w, Ok (2 * atan (IZR (resolution_x (render w)) / 2 / k00 K),
            2 * atan (IZR (resolution_y (render w)) / 2 / k11 K))).
Proof.
  intros HK. unfold get_fov, bind.
  pose proof (get_intrinsics_as_K_matrix_reads w) as Hw.
  destruct (get_intrinsics_as_K_matrix w) as [w1 r]. cbn in Hw, HK. subst w1 r.
  reflexivity.
Qed.

(** X8.  Along the axis the sensor is fitted to, the field of view is
    2 * arctan(sensor size / (2 * lens)), whatever the resolution: the
    horizontal one under the fit HORIZONTAL, the vertical one under the fit
    VERTICAL. *)
Theorem get_fov_of_sensor_and_lens :
  forall (w : World) (fov : R * R),
    snd (get_fov w) = Ok fov ->
    0 < lens (cam w) ->
    (0 < resolution_x (render w))%Z ->
    (0 < resolution_y (render w))%Z ->
    (sensor_fit (cam w) = HORIZONTAL ->
       fst fov = 2 * atan (sensor_width (cam w) / (2 * lens (cam w)))) /\
    (sensor_fit (cam w) = VERTICAL ->
       snd fov = 2 * atan (sensor_height (cam w) / (2 * lens (cam w)))).
Proof.
  intros w fov Hfov Hlens Hrx Hry.
  apply IZR_lt in Hrx, Hry.
  destruct (snd (get_intrinsics_as_K_matrix w)) as [K | e] eqn:HK.
  - rewrite (get_fov_unfold w K HK) in Hfov. cbn in Hfov. injection Hfov as <-.
    apply get_intrinsics_as_K_matrix_inv in HK.
    destruct HK as (vf & Hpax & Hpay & Hs & Evf & ->).
    cbn [fst snd k00 k11 K_of].
    unfold get_view_fac_in_px in Evf. rewrite truediv_ok in Evf by assumption.
    unfold get_sensor_size in *.
    split; intros Hfit; rewrite Hfit in *; injection Evf as <-; do 2 f_equal;
      field; repeat split; lra.
  - exfalso. unfold get_fov, bind in Hfov.
    destruct (get_intrinsics_as_K_matrix w) as [w1 r]. cbn in HK. subst r.
    discriminate.
Qed.

Lemma get_fov_of_sensor_and_lens_witness :
  (sensor_fit (cam (one_pixel_world 1 0)) = HORIZONTAL ->
     fst (2 * atan (1 / 2 / 1), 2 * atan (1 / 2 / 1)) = 2 * atan (36 / (2 * (36 * 1)))) /\
  (sensor_fit (cam (one_pixel_world 1 0)) = VERTICAL ->
     snd (2 * atan (1 / 2 / 1), 2 * atan (1 / 2 / 1)) = 2 * atan (24 / (2 * (36 * 1)))).
Proof.
  apply (get_fov_of_sensor_and_lens (one_pixel_world 1 0)).
  - unfold get_fov, bind. rewrite get_intrinsics_one_pixel. reflexivity.
  - cbn. lra.
  - cbn. lia.
  - cbn. lia.
Defined.

(** X9.  On a scene with a positive lens, sensor size, resolution and pixel
    aspect ratios, [get_fov] returns two angles strictly between 0 and
    pi. *)
Theorem get_fov_bounds :
  forall (w : World),
    0 < lens (cam w) ->
    0 < get_sensor_size (cam w) ->
    0 < pixel_aspect_x (render w) ->
    0 < pixel_aspect_y (render w) ->
    (0 < resolution_x (render w))%Z ->
    (0 < resolution_y (render w))%Z ->
    exists fov_x fov_y,
      get_fov w = (w, Ok (fov_x, fov_y)) /\
      0 < fov_x < PI /\ 0 < fov_y < PI.
Proof.
  intros w Hlens Hs Hx Hy Hrx Hry.
  destruct (get_intrinsics_as_K_matrix_cases w) as [[Hz _] | [_ [K HK]]].
  { destruct Hz as [H | [H | H]]; lra. }
  rewrite (get_fov_unfold w K HK).
  apply get_intrinsics_as_K_matrix_inv in HK.
  destruct HK as (vf & _ & _ & _ & Evf & ->).
  assert (Hvf : 0 < vf)
    by (eapply get_view_fac_in_px_pos; [| | exact Hrx | exact Hry | exact Evf]; lra).
  apply IZR_lt in Hrx, Hry.
  cbn [k00 k11 K_of].
  assert (Hfx : 0 < lens (cam w) / get_sensor_size (cam w) * vf).
  { apply Rmult_lt_0_compat; [apply Rdiv_lt_0_compat |]; assumption. }
  assert (Hfy : 0 < lens (cam w) / get_sensor_size (cam w) * vf
                    / (pixel_aspect_y (render w) / pixel_aspect_x (render w))).
  { apply Rdiv_lt_0_compat; [| apply Rdiv_lt_0_compat]; assumption. }
  assert (Hatan : forall a, 0 < a -> 0 < 2 * atan a < PI).
  { intros a Ha. pose proof (atan_bound a) as [_ Hub].
    pose proof (atan_increasing 0 a Ha) as Hinc. rewrite atan_0 in Hinc.
    split; lra. }
  eexists. eexists. split; [reflexivity |].
  split; apply Hatan; apply Rdiv_lt_0_compat; try assumption; lra.
Qed.

Lemma get_fov_bounds_witness :
  exists fov_x fov_y,
    get_fov default_world = (default_world, Ok (fov_x, fov_y)) /\
    0 < fov_x < PI /\ 0 < fov_y < PI.
Proof.
  apply (get_fov_bounds default_world); cbn; (lra || lia).
Defined.

(** ** Focal lengths that are not positive *)

(** X10.  Under the sensor fit HORIZONTAL, with a positive sensor width and
    image width, [set_intrinsics_from_K_matrix] raises for every K matrix
    whose fx is zero or negative, and stores no resolution, pixel aspect,
    shift or lens. *)
Theorem set_intrinsics_from_K_matrix_rejects_fx :
  forall (K : Matrix3) (image_width image_height : Z)
         (clip_start_v clip_end_v : R) (w : World),
    sensor_fit (cam w) = HORIZONTAL ->
    0 < sensor_width (cam w) ->
    (0 < image_width)%Z ->
    k00 K <= 0 ->
    let out := set_intrinsics_from_K_matrix K image_width image_height
                 clip_start_v clip_end_v w in
    (exists e, snd out = Raise e) /\
    render (fst out) = render w /\
    lens (cam (fst out)) = lens (cam w) /\
    shift_x (cam (fst out)) = shift_x (cam w) /\
    shift_y (cam (fst out)) = shift_y (cam w).
Proof.
  intros K iw ih cs ce w Hfit Hsw Hiw Hfx. cbv zeta.
  apply IZR_lt in Hiw.
  unfold set_intrinsics_from_K_matrix, bind, gets, lift.
  destruct (pixel_aspects_of (k00 K) (k11 K)) as [[pax pay] | e];
    [| cbn; repeat split; eauto].
  cbn [fst snd].
  unfold get_view_fac_in_px, get_sensor_size. rewrite Hfit.
  destruct (truediv pay pax) as [par | e]; [| cbn; repeat split; eauto].
  rewrite !truediv_ok by lra.
  unfold set_intrinsics_from_blender_params, bind, modify, raise.
  cbn [String.eqb Ascii.eqb Bool.eqb].
  rewrite Rltb_true; [cbn; repeat split; eauto |].
  assert (k00 K * sensor_width (cam w) / IZR iw <= 0); [| lra].
  unfold Rdiv. rewrite <- (Rmult_0_l (/ IZR iw)).
  apply Rmult_le_compat_r; [left; apply Rinv_0_lt_compat; assumption |].
  rewrite <- (Rmult_0_l (sensor_width (cam w))).
  apply Rmult_le_compat_r; lra.
Qed.

Lemma set_intrinsics_from_K_matrix_rejects_fx_witness :
  exists e,
    snd (set_intrinsics_from_K_matrix (K_of (-1000) 1000 320 240) 640 480
           (1 / 10) 100 (one_pixel_world 1 0)) = Raise e.
Proof.
  apply (set_intrinsics_from_K_matrix_rejects_fx (K_of (-1000) 1000 320 240)
           640 480 (1 / 10) 100 (one_pixel_world 1 0));
    [reflexivity | cbn; lra | lia | cbn; lra].
Defined.

(** ** The exceptions and the variables of the loop *)

(** X11.  The body of the loop raises "stalled" only in the 1001st pass or
    later, and "unstable" only in passes 2 to 1000 and with a residual above
    1e9; both only when the residual is above 0.999 times the previous one.
    The first pass raises neither.  The only other exception of the body is
    that of the maximum of an empty array. *)
Theorem loop_body_exceptions :
  forall (k : Coefficients) (s : Setup) (st : LoopState),
    (loop_body k s st = Raise Exception_stalled ->
       (1000 < S (it st))%nat /\
       exists error, error_of k s (x st) (y st) = Ok error /\
                     res_last st * (999 / 1000) < error) /\
    (loop_body k s st = Raise Exception_unstable ->
       (1 < S (it st) <= 1000)%nat /\
       exists error, error_of k s (x st) (y st) = Ok error /\
                     res_last st * (999 / 1000) < error /\ 1000000000 < error) /\
    (forall e, loop_body k s st = Raise e ->
       e = Exception_stalled \/ e = Exception_unstable \/
       (e = ValueError_empty_reduction /\ residuals k s (x st) (y st) = [])).
Proof.
  intros k s st.
  destruct (error_of k s (x st) (y st)) as [error | e0] eqn:Herr.
  - destruct (loop_body_cases k s st error Herr)
      as [([H1 H2] & H3 & Hb) | [([H1 H2] & H3 & H4 & Hb) | (_ & st' & Hb & _)]];
      rewrite Hb; (split; [| split]); try discriminate.
    + intros _. split; [assumption | eauto].
    + intros e He. injection He as <-. left. reflexivity.
    + intros _. split; [lia | eauto].
    + intros e He. injection He as <-. right. left. reflexivity.
  - unfold loop_body. rewrite Herr.
    unfold error_of, Np.max in Herr.
    destruct (residuals k s (x st) (y st)) as [| v l] eqn:Hres; [| discriminate].
    injection Herr as <-.
    split; [| split]; try discriminate.
    intros e He. injection He as <-. right. right. split; reflexivity.
Qed.

Lemma iterates_res_length k s st : iterates k s st -> length (res st) = S (it st).
Proof.
  induction 1 as [| st st' Hit IH Hres Hbody]; [reflexivity |].
  pose proof (loop_body_res_last _ _ _ _ Hbody) as Herr.
  destruct (loop_body_cases k s st _ Herr)
    as [(_ & _ & Hb) | [(_ & _ & _ & Hb) | (_ & st1 & Hb & Hr & Hi & _)]];
    rewrite Hb in Hbody; try discriminate.
  injection Hbody as <-. rewrite Hr, Hi. cbn [length]. rewrite IH. reflexivity.
Qed.

(** X12.  At the head of the loop the list [res] has one entry more than
    passes were made and its first entry (the last one of the reversed list
    kept here) is still the initial 1000; the step factor is 1 halved at
    most once per pass after the first: it stays in (0, 1]. *)
Theorem iterates_invariant :
  forall (k : Coefficients) (s : Setup) (st : LoopState),
    iterates k s st ->
    length (res st) = S (it st) /\
    List.last (res st) 0 = 1000 /\
    (exists j, (j <= it st - 1)%nat /\ factor st = (1 / 2) ^ j) /\
    0 < factor st <= 1.
Proof.
  intros k s st Hit.
  assert (Hmain : length (res st) = S (it st) /\ List.last (res st) 0 = 1000 /\
                  exists j, (j <= it st - 1)%nat /\ factor st = (1 / 2) ^ j).
  { induction Hit as [| st st' Hit (IHl & IHlast & j & Hj & Hf) Hres Hbody].
    - cbn. repeat split. exists 0%nat. split; [lia | reflexivity].
    - unfold loop_body in Hbody.
      destruct (error_of k s (x st) (y st)) as [error | e]; [| discriminate].
      destruct ((1 <? S (it st))%nat && Rltb (res_last st * (999 / 1000)) error)
        eqn:Hstall.
      + destruct (1000 <? S (it st))%nat; [discriminate |].
        destruct (Rltb 1000000000 error); [discriminate |].
        cbn [andb] in Hbody. injection Hbody as <-. cbn [res it factor length].
        apply andb_true_iff in Hstall as [H1 _]. apply Nat.ltb_lt in H1.
        split; [lia |]. split.
        * destruct (res st) as [| r0 rs]; [discriminate | exact IHlast].
        * exists (S j). split; [lia |]. rewrite Hf. cbn [pow]. lra.
      + cbn [andb] in Hbody. injection Hbody as <-. cbn [res it factor length].
        split; [lia |]. split.
        * destruct (res st) as [| r0 rs]; [discriminate | exact IHlast].
        * exists j. split; [lia | exact Hf]. }
  destruct Hmain as (Hl & Hlast & j & Hj & Hf).
  repeat split; try assumption; [eauto | |].
  - rewrite Hf. apply pow_lt. lra.
  - rewrite Hf. apply Rle_trans with (1 ^ j);
      [apply pow_incr; lra | rewrite pow1; lra].
Qed.

Lemma iterates_invariant_witness :
  length (res (mkLoopState [-1] [0] [0; 2000000000; 1000] 2 1)) = 3%nat /\
  List.last (res (mkLoopState [-1] [0] [0; 2000000000; 1000] 2 1)) 0 = 1000 /\
  (exists j, (j <= 2 - 1)%nat /\ 1 = (1 / 2) ^ j) /\
  0 < 1 <= 1.
Proof.
  apply (iterates_invariant (tangential (2 / 3)) (one_pixel_setup 1000000000 1)
           (mkLoopState [-1] [0] [0; 2000000000; 1000] 2 1)).
  apply (distortion_loop_result _ _ 3 (init_state (one_pixel_setup 1000000000 1)));
    [constructor | exact one_pixel_loop_converges].
Defined.

(** X13.  Every pass after the first that does not raise either brought the
    residual down to at most 0.999 times the previous one, or was one of the
    first 1000 passes and left a residual of at most 1e9. *)
Theorem iterates_residual_step :
  forall (k : Coefficients) (s : Setup) (st : LoopState) (cur prev : R) (rest : list R),
    iterates k s st ->
    res st = cur :: prev :: rest ->
    rest <> [] ->
    cur <= prev * (999 / 1000) \/ (cur <= 1000000000 /\ (it st <= 1000)%nat).
Proof.
  intros k s st cur prev rest Hit Hres Hrest.
  inversion Hit as [Hinit | st0 st' Hit0 Hguard Hbody Heq].
  - rewrite <- Hinit in Hres. cbn in Hres. discriminate.
  - subst st'. pose proof (iterates_res_length _ _ _ Hit0) as Hlen.
    pose proof (loop_body_res_last _ _ _ _ Hbody) as Herr.
    destruct (loop_body_cases k s st0 _ Herr)
      as [(_ & _ & Hb) | [(_ & _ & _ & Hb) | (Hn & st1 & Hb & Hr & Hi & _)]];
      rewrite Hb in Hbody; try discriminate.
    injection Hbody as <-. rewrite Hr in Hres. injection Hres as Hcur Hres0.
    unfold res_last in *. rewrite Hr in *. cbn [hd] in *. rewrite Hres0 in *.
    cbn [hd length] in *. subst cur.
    assert (H1 : (1 < S (it st0))%nat).
    { destruct rest; [contradiction | cbn [length] in Hlen; lia]. }
    destruct (Rle_or_lt (res_last st1) (prev * (999 / 1000))) as [Hle | Hlt].
    + left. unfold res_last. rewrite Hr. exact Hle.
    + right. unfold res_last in Hlt. rewrite Hr in Hlt. cbn [hd] in Hlt.
      rewrite Hi. split.
      * apply Rnot_lt_le. intros H. apply Hn. split; [split; assumption |].
        right. assumption.
      * destruct (Nat.le_gt_cases (S (it st0)) 1000) as [Hle | Hgt]; [assumption |].
        exfalso. apply Hn. split; [split; assumption | left; lia].
Qed.

Lemma iterates_residual_step_witness :
  0 <= 2000000000 * (999 / 1000)
  \/ (0 <= 1000000000 /\ (2 <= 1000)%nat).
Proof.
  apply (iterates_residual_step (tangential (2 / 3)) (one_pixel_setup 1000000000 1)
           (mkLoopState [-1] [0] [0; 2000000000; 1000] 2 1) 0 2000000000 [1000]).
  - apply (distortion_loop_result _ _ 3 (init_state (one_pixel_setup 1000000000 1)));
      [constructor | exact one_pixel_loop_converges].
  - reflexivity.
  - discriminate.
Defined.

(** ** No distortion *)

Lemma zip_with_pointwise {A B C} (f g : A -> B -> C) l1 l2 :
  (forall a b, f a b = g a b) -> zip_with f l1 l2 = zip_with g l1 l2.
Proof.
  intros H. revert l2. induction l1 as [| a l1 IH]; intros [| b l2]; cbn;
    try reflexivity.
  rewrite H, IH. reflexivity.
Qed.

Lemma map_zip_with {A B C D} (g : C -> D) (f : A -> B -> C) l1 l2 :
  map g (zip_with f l1 l2) = zip_with (fun a b => g (f a b)) l1 l2.
Proof.
  revert l2. induction l1 as [| a l1 IH]; intros [| b l2]; cbn; try reflexivity.
  rewrite IH. reflexivity.
Qed.

Lemma zip_with_first {A B} (l1 : list A) (l2 : list B) :
  length l2 = length l1 -> zip_with (fun a _ => a) l1 l2 = l1.
Proof.
  revert l2. induction l1 as [| a l1 IH]; intros [| b l2] H; cbn in *;
    try reflexivity; try discriminate.
  rewrite IH by lia. reflexivity.
Qed.

Lemma zip_with_second {A B} (l1 : list A) (l2 : list B) :
  length l2 = length l1 -> zip_with (fun _ b => b) l1 l2 = l2.
Proof.
  revert l2. induction l1 as [| a l1 IH]; intros [| b l2] H; cbn in *;
    try reflexivity; try discriminate.
  rewrite IH by lia. reflexivity.
Qed.

(** Without distortion the distorted point is the point. *)
Lemma distort_x_no_distortion a b : distort_x no_distortion a b = a.
Proof. unfold distort_x, radial_part. cbn. ring. Qed.

Lemma distort_y_no_distortion a b : distort_y no_distortion a b = b.
Proof. unfold distort_y, radial_part. cbn. ring. Qed.

Lemma zip_with_Rminus_self l : zip_with Rminus l l = List.repeat 0 (length l).
Proof.
  induction l as [| a l IH]; cbn; [reflexivity |].
  rewrite IH. f_equal. ring.
Qed.

Lemma residuals_of_zero a b n :
  zip_with Np.hypot (map (Rmult a) (List.repeat 0 n)) (map (Rmult b) (List.repeat 0 n))
  = List.repeat 0 n.
Proof.
  induction n as [| n IH]; cbn; [reflexivity |].
  rewrite IH. f_equal. unfold Np.hypot.
  replace (a * 0 * (a * 0) + b * 0 * (b * 0)) with 0 by ring. apply sqrt_0.
Qed.

Lemma np_max_zeros n : (0 < n)%nat -> Np.max (List.repeat 0 n) = Ok 0.
Proof.
  destruct n as [| n]; [lia | intros _].
  cbn [List.repeat Np.max]. f_equal.
  induction n as [| n IH]; cbn; [reflexivity |].
  rewrite IH. apply Rmax_left. lra.
Qed.

Lemma zip_with_step_zero f l :
  zip_with (fun a d => a - d * f) l (List.repeat 0 (length l)) = l.
Proof.
  induction l as [| a l IH]; cbn; [reflexivity |].
  rewrite IH. f_equal. ring.
Qed.

(** The one pass of the loop without distortion. *)
Lemma loop_body_no_distortion s :
  length (snd (P_und s)) = length (fst (P_und s)) ->
  (0 < length (fst (P_und s)))%nat ->
  loop_body no_distortion s (init_state s) =
    Ok (mkLoopState (fst (P_und s)) (snd (P_und s)) [0; 1000] 1 1).
Proof.
  intros Hlen Hpos.
  assert (Hdx : delta_x no_distortion s (fst (P_und s)) (snd (P_und s))
                = List.repeat 0 (length (fst (P_und s)))).
  { unfold delta_x.
    rewrite (zip_with_pointwise (distort_x no_distortion) (fun a _ => a))
      by apply distort_x_no_distortion.
    rewrite zip_with_first by assumption. apply zip_with_Rminus_self. }
  assert (Hdy : delta_y no_distortion s (fst (P_und s)) (snd (P_und s))
                = List.repeat 0 (length (fst (P_und s)))).
  { unfold delta_y.
    rewrite (zip_with_pointwise (distort_y no_distortion) (fun _ b => b))
      by apply distort_y_no_distortion.
    rewrite zip_with_second by assumption. rewrite <- Hlen.
    apply zip_with_Rminus_self. }
  unfold loop_body, error_of, residuals. cbn [init_state x y res it factor].
  rewrite Hdx, Hdy, residuals_of_zero.
  rewrite np_max_zeros by assumption. cbn [Nat.ltb Nat.leb andb].
  rewrite zip_with_step_zero. rewrite <- Hlen.
  rewrite zip_with_step_zero. reflexivity.
Qed.

(** What a returning [distortion_setup] computed. *)
Lemma distortion_setup_inv w s :
  snd (distortion_setup w) = Ok s ->
  exists K Kinv,
    snd (get_intrinsics_as_K_matrix w) = Ok K /\
    Np.inv K = Ok Kinv /\
    s = mkSetup (resolution_y (render w), resolution_x (render w)) K
          (resolution_y (render w), resolution_x (render w))
          (project Kinv
             (Np.tile (Np.arange (resolution_x (render w))) (resolution_y (render w)))
             (Np.repeat (Np.arange (resolution_y (render w))) (resolution_x (render w)))).
Proof.
  unfold distortion_setup, bind, gets, lift, ret.
  pose proof (get_intrinsics_as_K_matrix_reads w) as Hw.
  destruct (get_intrinsics_as_K_matrix w) as [w1 [K | e]]; cbn in Hw; subst w1;
    [| discriminate].
  destruct (Np.inv K) as [Kinv | e] eqn:Hinv; [| discriminate].
  cbn [snd fst]. intros H. injection H as <-.
  exists K, Kinv. repeat split. assumption.
Qed.

Lemma np_inv_K_of_inv fx fy cx cy Kinv :
  Np.inv (K_of fx fy cx cy) = Ok Kinv ->
  fx <> 0 /\ fy <> 0 /\
  Kinv = mkMatrix3 (1 / fx) 0 (- cx / fx) 0 (1 / fy) (- cy / fy) 0 0 1.
Proof.
  intros H.
  assert (Hd : fx <> 0 /\ fy <> 0).
  { unfold Np.inv in H.
    destruct (Req_dec_T (Np.det3 (K_of fx fy cx cy)) 0) as [Hz | Hz].
    - unfold Reqb in H. destruct (Req_dec_T _ 0); [discriminate | contradiction].
    - unfold Np.det3, K_of in Hz. cbn in Hz.
      split; intros E; apply Hz; rewrite E; ring. }
  destruct Hd as [Hx Hy]. rewrite np_inv_K_of in H by assumption.
  injection H as <-. repeat split; assumption.
Qed.

(** Projecting the pixels with the inverse of K and mapping them back with
    K gives the pixels. *)
Lemma project_back fx fy cx cy column row :
  fx <> 0 -> fy <> 0 -> length row = length column ->
  let P := project (mkMatrix3 (1 / fx) 0 (- cx / fx) 0 (1 / fy) (- cy / fy) 0 0 1)
             column row in
  map (fun a => fx * a + cx) (fst P) = column /\
  map (fun a => fy * a + cy) (snd P) = row.
Proof.
  intros Hfx Hfy Hlen. cbv zeta. unfold project.
  cbn [fst snd k00 k01 k02 k10 k11 k12]. rewrite !map_zip_with. split.
  - rewrite (zip_with_pointwise _ (fun a _ => a)) by (intros a b; field; assumption).
    apply zip_with_first. assumption.
  - rewrite (zip_with_pointwise _ (fun _ b => b)) by (intros a b; field; assumption).
    apply zip_with_second. assumption.
Qed.

(** The run of the loop without distortion. *)
Lemma no_distortion_run :
  forall (w : World) (s : Setup),
    snd (distortion_setup w) = Ok s ->
    (0 < resolution_x (render w))%Z ->
    (0 < resolution_y (render w))%Z ->
    let st := mkLoopState (fst (P_und s)) (snd (P_und s)) [0; 1000] 1 1 in
    distortion_loop no_distortion s 2 (init_state s) = Some (Ok st) /\
    u_of s st = Np.tile (Np.arange (resolution_x (render w))) (resolution_y (render w)) /\
    v_of s st = Np.repeat (Np.arange (resolution_y (render w))) (resolution_x (render w)).
Proof.
  intros w s Hs Hrx Hry. cbv zeta.
  destruct (distortion_setup w) as [w1 r] eqn:Hsetup. cbn in Hs. subst r.
  destruct (distortion_setup_lengths _ _ _ Hsetup) as [Hlx Hly].
  assert (Hs : snd (distortion_setup w) = Ok s) by (rewrite Hsetup; reflexivity).
  apply distortion_setup_inv in Hs. destruct Hs as (K & Kinv & HK & Hinv & Hs).
  apply get_intrinsics_as_K_matrix_inv in HK.
  destruct HK as (vf & _ & _ & _ & _ & HKeq).
  set (rx := resolution_x (render w)) in *. set (ry := resolution_y (render w)) in *.
  set (column := Np.tile (Np.arange rx) ry) in *.
  set (row := Np.repeat (Np.arange ry) rx) in *.
  assert (Hcr : length row = length column).
  { unfold row, column. rewrite length_np_repeat, length_np_tile, !length_arange. lia. }
  split; [| split].
  - rewrite (distortion_loop_continue _ _ _ _
               (mkLoopState (fst (P_und s)) (snd (P_und s)) [0; 1000] 1 1)).
    + apply distortion_loop_exit. cbn. lra.
    + cbn. lra.
    + apply loop_body_no_distortion; [rewrite Hlx, Hly; reflexivity |].
      rewrite Hlx. apply Nat.mul_pos_pos; lia.
  - rewrite HKeq in Hinv. apply np_inv_K_of_inv in Hinv as (Hfx & Hfy & ->).
    unfold u_of, fx_of, cx_of. rewrite Hs, HKeq.
    cbn [x P_und camera_K_matrix k00 k02 K_of].
    apply project_back; assumption.
  - rewrite HKeq in Hinv. apply np_inv_K_of_inv in Hinv as (Hfx & Hfy & ->).
    unfold v_of, fy_of, cy_of. rewrite Hs, HKeq.
    cbn [y P_und camera_K_matrix k11 k12 K_of].
    apply project_back; assumption.
Qed.

(** X14.  With all five coefficients zero, on a scene with a positive
    resolution, the loop returns after a single pass with residual 0 and the
    step factor 1, and the pixel coordinates u and v it stands for are each
    pixel's own column and row. *)
Theorem no_distortion_identity :
  forall (w : World) (s : Setup),
    snd (distortion_setup w) = Ok s ->
    (0 < resolution_x (render w))%Z ->
    (0 < resolution_y (render w))%Z ->
    let st := mkLoopState (fst (P_und s)) (snd (P_und s)) [0; 1000] 1 1 in
    distortion_loop no_distortion s 2 (init_state s) = Some (Ok st) /\
    u_of s st = Np.tile (Np.arange (resolution_x (render w))) (resolution_y (render w)) /\
    v_of s st = Np.repeat (Np.arange (resolution_y (render w))) (resolution_x (render w)).
Proof. exact no_distortion_run. Qed.

Lemma no_distortion_identity_witness :
  distortion_loop no_distortion (one_pixel_setup 1 0) 2 (init_state (one_pixel_setup 1 0))
    = Some (Ok (mkLoopState [0] [0] [0; 1000] 1 1)) /\
  u_of (one_pixel_setup 1 0) (mkLoopState [0] [0] [0; 1000] 1 1)
    = Np.tile (Np.arange 1) 1 /\
  v_of (one_pixel_setup 1 0) (mkLoopState [0] [0] [0; 1000] 1 1)
    = Np.repeat (Np.arange 1) 1.
Proof.
  apply (no_distortion_identity (one_pixel_world 1 0) (one_pixel_setup 1 0)).
  - rewrite distortion_setup_one_pixel by lra. reflexivity.
  - cbn. lia.
  - cbn. lia.
Defined.

(** ** Minimum and maximum of the pixel coordinates *)

Lemma fold_right_Rmin_lower v l :
  fold_right Rmin v l <= v /\ Forall (fun r => fold_right Rmin v l <= r) l.
Proof.
  induction l as [| b l [IHv IHl]]; cbn [fold_right].
  - split; [lra | constructor].
  - split.
    + eapply Rle_trans; [apply Rmin_r | exact IHv].
    + constructor; [apply Rmin_l |].
      eapply Forall_impl; [exact IHl |].
      intros r Hr. cbn in Hr. eapply Rle_trans; [apply Rmin_r | exact Hr].
Qed.

Lemma no_distortion_one_pixel_returns :
  exists w',
    set_lens_distortion 2 no_distortion (one_pixel_world 1 0) = (w', Some (Ok tt)).
Proof.
  unfold set_lens_distortion.
  rewrite distortion_setup_one_pixel by lra.
  destruct (no_distortion_run (one_pixel_world 1 0) (one_pixel_setup 1 0))
    as (Hrun & _); [| cbn; lia | cbn; lia |].
  { rewrite distortion_setup_one_pixel by lra. reflexivity. }
  rewrite Hrun.
  unfold distortion_finish, bind, lift, gets, modify, u_of, v_of, cx_of, cy_of, fx_of, fy_of.
  cbn [map x y camera_K_matrix one_pixel_setup K_of k00 k01 k02 k10 k11 k12 k20 k21 k22
       Np.min Np.max fold_right P_und fst snd].
  rewrite !(sign_ceil_abs_eq _ 0) by lra.
  rewrite get_intrinsics_one_pixel.
  change (0 - (0 - 1) + 2)%Z with 3%Z.
  change (0 - 1)%Z with (-1)%Z.
  py_run. eexists. reflexivity.
Qed.

(** ** What a raising set_lens_distortion leaves behind *)

Lemma set_intrinsics_from_K_matrix_on_raise K iw ih cs ce w w' e :
  set_intrinsics_from_K_matrix K iw ih cs ce w = (w', Raise e) ->
  w' = w \/ w' = with_cam (set_lens_unit "MILLIMETERS") w.
Proof.
  unfold set_intrinsics_from_K_matrix, bind, gets, lift.
  repeat match goal with
         | |- context [match ?r with Ok _ => _ | Raise _ => _ end] =>
             destruct r; [| intros H; injection H as <- _; left; reflexivity]
         end.
  unfold set_intrinsics_from_blender_params, bind, modify, raise.
  cbn [String.eqb Ascii.eqb Bool.eqb].
  destruct (Rltb _ 1); [| discriminate].
  intros H. injection H as <- _. right. reflexivity.
Qed.

(** X16.  A raising call of [set_lens_distortion] has written nothing to the
    global storage and has left the resolution and the pixel aspect ratios
    as they were; of the camera at most the lens unit has changed. *)
Theorem set_lens_distortion_on_raise :
  forall (fuel : nat) (k : Coefficients) (w w' : World) (e : exn),
    set_lens_distortion fuel k w = (w', Some (Raise e)) ->
    global_storage w' = global_storage w /\
    render w' = render w /\
    (cam w' = cam w \/ cam w' = set_lens_unit "MILLIMETERS" (cam w)).
Proof.
  intros fuel k w w' e. unfold set_lens_distortion.
  pose proof (distortion_setup_reads w) as Hreads.
  destruct (distortion_setup w) as [w1 [s | e0]]; cbn in Hreads; subst w1.
  2: { intros H. injection H as <- _. repeat split. left. reflexivity. }
  destruct (distortion_loop k s fuel (init_state s)) as [[st | e0] |];
    [| intros H; injection H as <- _; repeat split; left; reflexivity | discriminate].
  unfold distortion_finish, bind, lift, gets, modify.
  repeat match goal with
         | |- context [match Np.min ?l with Ok _ => _ | Raise _ => _ end] =>
             destruct (Np.min l);
             [| intros H; injection H as <- _; repeat split; left; reflexivity]
         | |- context [match Np.max ?l with Ok _ => _ | Raise _ => _ end] =>
             destruct (Np.max l);
             [| intros H; injection H as <- _; repeat split; left; reflexivity]
         end.
  pose proof (get_intrinsics_as_K_matrix_reads w) as Hget.
  destruct (get_intrinsics_as_K_matrix w) as [w2 [K | e0]]; cbn in Hget; subst w2;
    [| intros H; injection H as <- _; repeat split; left; reflexivity].
  cbn [fst snd].
  destruct (set_intrinsics_from_K_matrix _ _ _ _ _ w) as [w3 [[] | e0]] eqn:Hset;
    [discriminate |].
  intros H. injection H as <- _.
  apply set_intrinsics_from_K_matrix_on_raise in Hset as [-> | ->]; repeat split;
    [left | right]; reflexivity.
Qed.

(** With fx = 1e9, the pixel at (1, 0) and p1 = 1, the second pass finds a
    residual of 9e9 after one of 3e9, and raises. *)
Lemma one_pixel_loop_unstable :
  distortion_loop (tangential 1) (one_pixel_setup 1000000000 1) 2
    (init_state (one_pixel_setup 1000000000 1))
  = Some (Raise Exception_unstable).
Proof.
  change (init_state (one_pixel_setup 1000000000 1))
    with (mkLoopState [1] [0] [1000] 0 1).
  rewrite (distortion_loop_continue _ _ _ _ (mkLoopState [-2] [0] [3000000000; 1000] 1 1)).
  - apply distortion_loop_raise; [cbn; lra | one_pixel_pass].
  - cbn. lra.
  - one_pixel_pass.
Qed.

Lemma set_lens_distortion_on_raise_witness :
  global_storage (one_pixel_world 1000000000 1)
    = global_storage (one_pixel_world 1000000000 1) /\
  render (one_pixel_world 1000000000 1) = render (one_pixel_world 1000000000 1) /\
  (cam (one_pixel_world 1000000000 1) = cam (one_pixel_world 1000000000 1) \/
   cam (one_pixel_world 1000000000 1)
     = set_lens_unit "MILLIMETERS" (cam (one_pixel_world 1000000000 1))).
Proof.
  apply (set_lens_distortion_on_raise 2 (tangential 1)
           (one_pixel_world 1000000000 1) (one_pixel_world 1000000000 1)
           Exception_unstable).
  unfold set_lens_distortion.
  rewrite distortion_setup_one_pixel by lra.
  rewrite one_pixel_loop_unstable. reflexivity.
Defined.

(** ** The intrinsics after set_lens_distortion *)

(** Setting the intrinsics from any matrix with positive focal lengths and
    reading them back. *)
Lemma set_then_get K iw ih cs ce w w' :
  0 < k00 K -> 0 < k11 K -> (0 < iw)%Z -> (0 < ih)%Z ->
  set_intrinsics_from_K_matrix K iw ih cs ce w = (w', Ok tt) ->
  snd (get_intrinsics_as_K_matrix w') = Ok (K_of (k00 K) (k11 K) (k02 K) (k12 K)) /\
  clip_start (cam w') = cs /\ clip_end (cam w') = ce /\
  resolution_x (render w') = iw /\ resolution_y (render w') = ih.
Proof.
  intros Hfx Hfy Hw Hh Hset.
  apply set_intrinsics_from_K_matrix_inv in Hset.
  destruct Hset as (pax & pay & par & vf & f & sx & sy0
                    & Epa & Epar & Evf & Ef & Esx & Esy & Hf & ->).
  split; [| repeat split].
  pose proof (pixel_aspects_of_pos _ _ _ _ Hfx Hfy Epa) as (Hpx & Hpy & _).
  pose proof (pixel_aspects_of_ratio _ _ _ _ Hfx Hfy Epa) as Hratio.
  assert (Hvf : 0 < vf)
    by (eapply get_view_fac_in_px_pos; [| | exact Hw | exact Hh | exact Evf]; lra).
  apply truediv_inv in Ef as [_ ->].
  apply truediv_inv in Esx as [_ ->].
  apply truediv_inv in Esy as [_ ->].
  pose proof (truediv_inv _ _ _ Epar) as [Hpax ->].
  assert (Hparpos : 0 < k00 K / k11 K) by (apply Rdiv_lt_0_compat; assumption).
  set (sensor := get_sensor_size (cam w)) in *.
  assert (Hsensor : sensor <> 0).
  { intros E. rewrite E in Hf. unfold Rdiv in Hf.
    rewrite Rmult_0_r, Rmult_0_l in Hf. lra. }
  erewrite get_intrinsics_as_K_matrix_eq; cbn; try eassumption.
  - unfold K_of. rewrite Hratio.
    change (get_sensor_size (set_shift _ _ _)) with sensor.
    f_equal. f_equal; field; repeat split; lra.
  - rewrite Hratio. lra.
Qed.

Lemma sign_ceil_abs_le a b : a <= b -> (Np.sign_ceil_abs a <= Np.sign_ceil_abs b)%Z.
Proof.
  intros Hab.
  assert (Hneg : forall v, v < 0 -> Np.sign_ceil_abs v = Zfloor v).
  { intros v Hv. unfold Np.sign_ceil_abs, Np.sign.
    rewrite Rltb_true, Rabs_left, ZceilN by assumption. lia. }
  assert (Hpos : forall v, 0 <= v -> Np.sign_ceil_abs v = Zceil v).
  { intros v Hv. unfold Np.sign_ceil_abs, Np.sign.
    rewrite Rltb_false, Rabs_pos_eq by assumption.
    destruct (Rltb_spec 0 v) as [H | H]; [lia |].
    assert (v = 0) by lra. subst v. rewrite (Zceil_eq 0); [lia | lra]. }
  destruct (Rlt_or_le a 0) as [Ha | Ha]; destruct (Rlt_or_le b 0) as [Hb | Hb].
  - rewrite !Hneg by assumption. apply Zfloor_le. assumption.
  - rewrite Hneg, Hpos by assumption.
    pose proof (Zfloor_bound a) as [Hfa _]. pose proof (Zceil_bound b) as [_ Hcb].
    apply le_IZR. lra.
  - lra.
  - rewrite !Hpos by assumption. apply Zceil_le. assumption.
Qed.

Lemma np_min_le_max l lo hi : Np.min l = Ok lo -> Np.max l = Ok hi -> lo <= hi.
Proof.
  destruct l as [| v l]; [discriminate |]. cbn [Np.min Np.max].
  intros H1 H2. injection H1 as <-. injection H2 as <-.
  destruct (fold_right_Rmin_lower v l) as [Hlo _].
  destruct (fold_right_Rmax_upper v l) as [Hhi _]. lra.
Qed.

(** The K matrix does not depend on the global storage. *)
Lemma get_intrinsics_as_K_matrix_storage key value w :
  snd (get_intrinsics_as_K_matrix (GlobalStorage_set key value w))
  = snd (get_intrinsics_as_K_matrix w).
Proof.
  unfold get_intrinsics_as_K_matrix, bind, gets, lift, ret.
  cbn [cam render GlobalStorage_set].
  repeat match goal with
         | |- context [match ?r with Ok _ => _ | Raise _ => _ end] => destruct r
         end; reflexivity.
Qed.

(** X17.  A returning call of [set_lens_distortion], on a scene whose K
    matrix has positive focal lengths, leaves a scene with the same focal
    lengths fx and fy in pixels and the same clipping; only the principal
    point and the resolution change, and the new resolution is at least 3 in
    each direction. *)
Theorem set_lens_distortion_keeps_focal_lengths :
  forall (fuel : nat) (k : Coefficients) (w w' : World) (K : Matrix3),
    set_lens_distortion fuel k w = (w', Some (Ok tt)) ->
    snd (get_intrinsics_as_K_matrix w) = Ok K ->
    0 < k00 K -> 0 < k11 K ->
    (exists cx' cy',
       snd (get_intrinsics_as_K_matrix w') = Ok (K_of (k00 K) (k11 K) cx' cy')) /\
    clip_start (cam w') = clip_start (cam w) /\
    clip_end (cam w') = clip_end (cam w) /\
    (3 <= resolution_x (render w'))%Z /\ (3 <= resolution_y (render w'))%Z.
Proof.
  intros fuel k w w' K H HK Hfx Hfy. unfold set_lens_distortion in H.
  pose proof (distortion_setup_reads w) as Hreads.
  destruct (distortion_setup w) as [w1 [s | e]]; [| discriminate].
  cbn in Hreads. subst w1.
  destruct (distortion_loop k s fuel (init_state s)) as [[st | e] |]; try discriminate.
  unfold distortion_finish, bind, lift, gets, modify in H.
  destruct (Np.min (u_of s st)) as [min_u | e] eqn:Hminu; [| discriminate].
  destruct (Np.max (u_of s st)) as [max_u | e] eqn:Hmaxu; [| discriminate].
  destruct (Np.min (v_of s st)) as [min_v | e] eqn:Hminv; [| discriminate].
  destruct (Np.max (v_of s st)) as [max_v | e] eqn:Hmaxv; [| discriminate].
  pose proof (sign_ceil_abs_le _ _ (np_min_le_max _ _ _ Hminu Hmaxu)) as Hu.
  pose proof (sign_ceil_abs_le _ _ (np_min_le_max _ _ _ Hminv Hmaxv)) as Hv.
  pose proof (get_intrinsics_as_K_matrix_reads w) as Hget.
  destruct (get_intrinsics_as_K_matrix w) as [w2 [K0 | e]]; [| discriminate].
  cbn in Hget, HK. subst w2. injection HK as ->. cbn [fst snd] in H.
  destruct (set_intrinsics_from_K_matrix _ _ _ _ _ w) as [w3 [[] | e]] eqn:Hset;
    [| discriminate].
  injection H as <-.
  apply set_then_get in Hset; cbn [k00 k11 k02 k12]; try assumption; try lia.
  destruct Hset as (Hk & Hcs & Hce & Hrx & Hry).
  cbn [k00 k11 k02 k12] in Hk.
  split; [| repeat split].
  - eexists. eexists. rewrite get_intrinsics_as_K_matrix_storage. exact Hk.
  - exact Hcs.
  - exact Hce.
  - cbn [render GlobalStorage_set]. rewrite Hrx. lia.
  - cbn [render GlobalStorage_set]. rewrite Hry. lia.
Qed.

Lemma set_lens_distortion_keeps_focal_lengths_witness :
  exists w',
    set_lens_distortion 2 no_distortion (one_pixel_world 1 0) = (w', Some (Ok tt)) /\
    (exists cx' cy',
       snd (get_intrinsics_as_K_matrix w') = Ok (K_of 1 1 cx' cy')) /\
    (3 <= resolution_x (render w'))%Z.
Proof.
  destruct no_distortion_one_pixel_returns as [w' H].
  exists w'. split; [exact H |].
  destruct (set_lens_distortion_keeps_focal_lengths 2 no_distortion
              (one_pixel_world 1 0) w' (K_of 1 1 (- (0 * 1)) 0) H)
    as (Hk & _ & _ & Hx & _).
  - rewrite get_intrinsics_one_pixel. reflexivity.
  - cbn. lra.
  - cbn. lra.
  - split; assumption.
Defined.

(** ** The focal length guard *)

(** X18.  For positive focal lengths and a positive image size,
    [set_intrinsics_from_K_matrix] divides by nothing that is zero: it
    returns when the focal length it derives, fx * sensor size / view factor
    in millimeters, is at least 1, and otherwise raises the focal length
    exception carrying that value, having overwritten the lens unit only. *)
Theorem set_intrinsics_from_K_matrix_focal_length_guard :
  forall (fx fy cx cy : R) (image_width image_height : Z)
         (clip_start_v clip_end_v : R) (w : World),
    0 < fx -> 0 < fy -> (0 < image_width)%Z -> (0 < image_height)%Z ->
    exists pax pay vf,
      pixel_aspects_of fx fy = Ok (pax, pay) /\
      get_view_fac_in_px (cam w) pax pay image_width image_height = Ok vf /\
      0 < vf /\
      let f_in_mm := fx * get_sensor_size (cam w) / vf in
      (1 <= f_in_mm ->
         exists w', set_intrinsics_from_K_matrix (K_of fx fy cx cy) image_width
                      image_height clip_start_v clip_end_v w = (w', Ok tt)) /\
      (f_in_mm < 1 ->
         set_intrinsics_from_K_matrix (K_of fx fy cx cy) image_width image_height
           clip_start_v clip_end_v w
         = (with_cam (set_lens_unit "MILLIMETERS") w,
            Raise (Exception_focal_length f_in_mm))).
Proof.
  intros fx fy cx cy iw ih cs ce w Hfx Hfy Hw Hh.
  assert (Hpa : exists pax pay, pixel_aspects_of fx fy = Ok (pax, pay)).
  { unfold pixel_aspects_of.
    destruct (Rltb fy fx); [rewrite truediv_ok by lra; eauto |].
    destruct (Rltb fx fy); [rewrite truediv_ok by lra; eauto | eauto]. }
  destruct Hpa as (pax & pay & Epa).
  pose proof (pixel_aspects_of_pos _ _ _ _ Hfx Hfy Epa) as (Hpx & Hpy & _).
  assert (Hvf : exists vf, get_view_fac_in_px (cam w) pax pay iw ih = Ok vf).
  { unfold get_view_fac_in_px. rewrite truediv_ok by lra.
    destruct (sensor_fit (cam w)); [destruct (Rleb _ _) | |]; eauto. }
  destruct Hvf as (vf & Evf).
  assert (Hpos : 0 < vf)
    by (eapply get_view_fac_in_px_pos; [| | exact Hw | exact Hh | exact Evf]; lra).
  exists pax, pay, vf. split; [assumption |]. split; [assumption |].
  split; [assumption |]. cbv zeta.
  assert (Hrun : forall r,
            set_intrinsics_from_blender_params (fx * get_sensor_size (cam w) / vf)
              iw ih cs ce pax pay
              ((cx - (IZR iw - 1) / 2) / - vf)
              ((cy - (IZR ih - 1) / 2) / vf * (pay / pax)) "MILLIMETERS" w = r ->
            set_intrinsics_from_K_matrix (K_of fx fy cx cy) iw ih cs ce w = r).
  { intros r <-.
    unfold set_intrinsics_from_K_matrix, bind, gets, lift.
    cbn [k00 k11 k02 k12 K_of]. rewrite Epa. cbn [fst snd].
    rewrite truediv_ok by lra. rewrite Evf.
    rewrite !truediv_ok by lra. reflexivity. }
  split; intros Hf.
  - eexists. apply Hrun.
    unfold set_intrinsics_from_blender_params, bind, modify, raise.
    cbn [String.eqb Ascii.eqb Bool.eqb].
    rewrite Rltb_false by assumption. reflexivity.
  - apply Hrun.
    unfold set_intrinsics_from_blender_params, bind, modify, raise.
    cbn [String.eqb Ascii.eqb Bool.eqb].
    rewrite Rltb_true by assumption. reflexivity.
Qed.

Lemma set_intrinsics_from_K_matrix_focal_length_guard_witness :
  exists pax pay vf,
    pixel_aspects_of 1000 1000 = Ok (pax, pay) /\
    get_view_fac_in_px (cam default_world) pax pay 640 480 = Ok vf /\
    0 < vf /\
    (1 <= 1000 * get_sensor_size (cam default_world) / vf ->
       exists w', set_intrinsics_from_K_matrix (K_of 1000 1000 320 240) 640 480
                    (1 / 10) 100 default_world = (w', Ok tt)) /\
    (1000 * get_sensor_size (cam default_world) / vf < 1 ->
       set_intrinsics_from_K_matrix (K_of 1000 1000 320 240) 640 480
         (1 / 10) 100 default_world
       = (with_cam (set_lens_unit "MILLIMETERS") default_world,
          Raise (Exception_focal_length
                   (1000 * get_sensor_size (cam default_world) / vf)))).
Proof.
  apply (set_intrinsics_from_K_matrix_focal_length_guard 1000 1000 320 240 640 480
           (1 / 10) 100 default_world); (lra || lia).
Defined.
